(** * A worker pool in TypeScript: the coordination core of [worker_pool.ts]

    The development embeds the four classes of [src/worker_pool.ts]:

    - [Lock], the single-slot wait/notify primitive (lines 26-45);
    - [TaskQueue], the doubly-linked FIFO with its async generator [pop]
      (lines 47-91);
    - [AvailabilityQueue], the boolean array with its idle counter
      (lines 93-131);
    - [WorkerPool], the notification table, [addTask], the worker event
      handlers and the dispatcher loop [start] (lines 133-205);

    and the message handler of the worker script [src/worker.ts].

    JavaScript runs all of this on one thread: a method body is atomic up to
    its next [await].  Every definition below is one such atomic piece; an
    [await] ends the piece and the continuation is a piece of its own.  The
    calls a piece makes on a [Lock] are returned as a trace, in program
    order. *)

From stdpp Require Import gmap strings list fin_maps pretty.
From Stdlib Require Import ZArith Lia.

(** ** Lock (lines 26-45) *)

Module Lock.

(** A waiter is the [resolve] function of the promise that one call of
    [acquire] creates; promises are numbered as they are created. *)
Abbreviation waiter := nat (only parsing).

(** [private resolve: ((data?: any) => void) | undefined] *)
Record t := { resolve : option waiter }.

(** The trace of method calls on a lock.  [Release woken] records the call
    of [release()] together with the waiter whose [resolve()] it ran, if
    any. *)
Inductive call :=
| Acquire (w : waiter)
| Release (woken : option waiter).

Definition constructor : t := {| resolve := None |}.

(** [acquire]: the executor of the new promise stores its resolver,
    overwriting whatever was stored; the caller then awaits the promise. *)
Definition acquire (w : waiter) (l : t) : t * list call :=
  ({| resolve := Some w |}, [Acquire w]).

(** [release]: [if (this.resolve) { this.resolve(); this.resolve = undefined; }] *)
Definition release (l : t) : t * list call :=
  match resolve l with
  | Some w => ({| resolve := None |}, [Release (Some w)])
  | None => (l, [Release None])
  end.

(** The waiters resumed by a trace, in order. *)
Definition woken (c : call) : list waiter :=
  match c with
  | Release (Some w) => [w]
  | _ => []
  end.

Definition wakes (cs : list call) : list waiter := cs ≫= woken.

(** The number of calls of [release()], and of [acquire()], in a trace. *)
Definition is_release (c : call) : bool :=
  match c with Release _ => true | Acquire _ => false end.

Definition releases (cs : list call) : nat :=
  length (filter (λ c, is_release c = true) cs).

Definition acquires (cs : list call) : nat :=
  length (filter (λ c, is_release c = false) cs).

(** A client of the lock: a sequence of [wait]/[signal] requests. *)
Inductive op :=
| Wait (w : waiter)
| Signal.

Definition step (o : op) (l : t) : t * list call :=
  match o with
  | Wait w => acquire w l
  | Signal => release l
  end.

Fixpoint run (os : list op) (l : t) : t * list call :=
  match os with
  | [] => (l, [])
  | o :: os' =>
      let '(l1, c1) := step o l in
      let '(l2, c2) := run os' l1 in
      (l2, c1 ++ c2)
  end.

(** The waiters a client registers, in order, and the number of its
    [signal] requests. *)
Definition waits (os : list op) : list waiter :=
  os ≫= λ o, match o with Wait w => [w] | Signal => [] end.

Definition signals (os : list op) : nat :=
  length (os ≫= λ o, match o with Wait _ => [] | Signal => [()] end).

End Lock.

(** ** AvailabilityQueue (lines 93-131) *)

Module AvailabilityQueue.
Local Open Scope Z_scope.

(** [availability] is a JavaScript array of booleans.  A read past the end
    (or of a hole) gives [undefined], which every test in the class treats
    like [false]; a write past the end extends the array, leaving holes.
    Holes are kept as [false] cells: the class only ever tests truthiness.
    Slot ids are array indices (the loop counters [workerId] and [id]). *)
Record t := {
  availability : list bool;
  availabilityCount : Z;
  lock : Lock.t
}.

(** [this.availability[id]] as a condition. *)
Definition read (id : nat) (a : list bool) : bool := default false (a !! id).

(** The slot ids that are array indices in JavaScript: the integers below
    [2^32 - 1].  The pool passes no other id: its ids are the loop counter
    of [getInstance], below [poolSize], and the loop counter of
    [getAvailability], below the length of the array. *)
Definition array_index (id : nat) : Prop := Z.of_nat id < 2 ^ 32 - 1.

(** [this.availability[id] = b], for an array index [id].  (With an id that
    is no array index the assignment would set a property that is not an
    element of the array and leave its length alone; the list has no place
    for it, and what is stated about ids past the end of the array is
    stated for array indices.) *)
Definition write (id : nat) (b : bool) (a : list bool) : list bool :=
  if decide (id < length a)%nat then <[id := b]> a
  else a ++ replicate (id - length a) false ++ [b].

(** [new Array(size).fill(false)], count 0, a new lock. *)
Definition constructor (size : nat) : t :=
  {| availability := replicate size false;
     availabilityCount := 0;
     lock := Lock.constructor |}.

Definition freeze (id : nat) (a : t) : t :=
  if read id (availability a) then
    {| availability := write id false (availability a);
       availabilityCount := availabilityCount a - 1;
       lock := lock a |}
  else a.

Definition enable (id : nat) (a : t) : t * list Lock.call :=
  if negb (read id (availability a)) then
    let '(l, c) := Lock.release (lock a) in
    ({| availability := write id true (availability a);
        availabilityCount := availabilityCount a + 1;
        lock := l |}, c)
  else (a, []).

(** The [for] loop of [getAvailability], entered with counter [id] and
    [fuel] iterations left before [id] reaches [availability.length]; the
    array is not written before the loop returns.  The result is the
    returned number, [-1] from the fallback after the loop. *)
Fixpoint scan (fuel id : nat) (a : t) : t * Z :=
  match fuel with
  | O => (a, -1)
  | S fuel' =>
      if read id (availability a) then (freeze id a, Z.of_nat id)
      else scan fuel' (S id) a
  end.

Inductive outcome :=
| Returned (z : Z)
| Suspended.

(** One atomic run of [getAvailability]: from its entry, or from the wake-up
    of its [await], up to the next [await] or to the [return].  Both start
    at the test of the [while] loop.  [w] is the promise a new
    [lock.acquire()] would create. *)
Definition getAvailability (w : Lock.waiter) (a : t)
  : t * list Lock.call * outcome :=
  if decide (availabilityCount a <= 0) then
    let '(l, c) := Lock.acquire w (lock a) in
    ({| availability := availability a;
        availabilityCount := availabilityCount a;
        lock := l |}, c, Suspended)
  else
    let '(a', z) := scan (length (availability a)) 0 a in
    (a', [], Returned z).

(** Clients of the tracker: any sequence of the three operations. *)
Inductive op :=
| Freeze (id : nat)
| Enable (id : nat)
| GetAvailability (w : Lock.waiter).

Definition step (o : op) (a : t) : t * list Lock.call * list Z :=
  match o with
  | Freeze id => (freeze id a, [], [])
  | Enable id => let '(a', c) := enable id a in (a', c, [])
  | GetAvailability w =>
      let '(a', c, r) := getAvailability w a in
      (a', c, match r with Returned z => [z] | Suspended => [] end)
  end.

(** The state after a sequence of operations, the lock calls made and the
    values returned by the [getAvailability] calls, in order. *)
Fixpoint run (os : list op) (a : t) : t * list Lock.call * list Z :=
  match os with
  | [] => (a, [], [])
  | o :: os' =>
      let '(a1, c1, r1) := step o a in
      let '(a2, c2, r2) := run os' a1 in
      (a2, c1 ++ c2, r1 ++ r2)
  end.

Definition state (x : t * list Lock.call * list Z) : t := x.1.1.
Definition results (x : t * list Lock.call * list Z) : list Z := x.2.

(** The number of [true] flags of an array, and of a tracker. *)
Definition count_true (l : list bool) : nat := length (filter (λ b, b = true) l).

Definition idle_slots (a : t) : nat := count_true (availability a).

(** The slot an operation names, if any. *)
Definition op_slot (o : op) : option nat :=
  match o with
  | Freeze id | Enable id => Some id
  | GetAvailability _ => None
  end.

(** The class invariant: the counter is the number of [true] flags. *)
Definition count_ok (a : t) : Prop :=
  availabilityCount a = Z.of_nat (idle_slots a).

End AvailabilityQueue.

(** ** TaskQueue (lines 47-91) *)

Module TaskQueue.

(** Queue elements are objects on the JavaScript heap, compared and linked
    by reference.  The heap of one queue is the list of the elements it
    ever allocated; a reference is an index into it, [undefined] is
    [None].  Elements are never freed. *)
Abbreviation addr := nat (only parsing).

Section Queue.
Variable V : Type.

Record QueueElement := {
  prev : option addr;
  next : option addr;
  value : V
}.

Record t := {
  heap : list QueueElement;
  head : option addr;
  tail : option addr;
  lock : Lock.t
}.

Definition constructor : t :=
  {| heap := []; head := None; tail := None; lock := Lock.constructor |}.

Definition set_next (n : option addr) (e : QueueElement) : QueueElement :=
  {| prev := prev e; next := n; value := value e |}.

Definition set_prev (p : option addr) (e : QueueElement) : QueueElement :=
  {| prev := p; next := next e; value := value e |}.

(** Lines 65-71: the new element is allocated first, then linked. *)
Definition link (item : V) (q : t) : t :=
  let n := length (heap q) in
  match tail q with
  | Some a =>
      {| heap := alter (set_next (Some n)) a
                   (heap q ++ [{| prev := Some a; next := None; value := item |}]);
         head := head q;
         tail := Some n;
         lock := lock q |}
  | None =>
      {| heap := heap q ++ [{| prev := None; next := None; value := item |}];
         head := Some n;
         tail := Some n;
         lock := lock q |}
  end.

(** [push]: link the element, then call [this.lock.release()] (line 72). *)
Definition push (item : V) (q : t) : t * list Lock.call :=
  let q1 := link item q in
  let '(l, c) := Lock.release (lock q1) in
  ({| heap := heap q1; head := head q1; tail := tail q1; lock := l |}, c).

(** Lines 80-87 of [pop]: read the head's value and unlink the head.
    [None] is a [TypeError]: [this.head!.value] with no head, or
    [head!.prev = ...] with no successor. *)
Definition dequeue (q : t) : option (V * t) :=
  a ← head q;
  e ← heap q !! a;
  if decide (head q = tail q) then
    Some (value e,
          {| heap := heap q; head := None; tail := None; lock := lock q |})
  else
    b ← next e;
    Some (value e,
          {| heap := alter (set_prev None) b (heap q);
             head := Some b;
             tail := tail q;
             lock := lock q |}).

(** The two atomic pieces of one iteration of the generator [pop].  From the
    top of the loop: with no head, call [lock.acquire()] and await (no item
    yet); otherwise go on to line 80.  After the await: line 80 directly,
    the head is not tested again. *)
Definition pop_enter (w : Lock.waiter) (q : t)
  : option (t * list Lock.call * option V) :=
  match head q with
  | None =>
      let '(l, c) := Lock.acquire w (lock q) in
      Some ({| heap := heap q; head := head q; tail := tail q; lock := l |},
            c, None)
  | Some _ => '(item, q') ← dequeue q; Some (q', [], Some item)
  end.

Definition pop_resume (q : t) : option (t * list Lock.call * option V) :=
  '(item, q') ← dequeue q; Some (q', [], Some item).

(** Where the generator object stands between two atomic pieces. *)
Inductive generator :=
| Idle                          (* not started, or suspended at [yield] *)
| Awaiting (w : Lock.waiter)    (* suspended at [await this.lock.acquire()] *)
| Resumable.                    (* its promise is resolved, the rest is queued *)

(** A queue with its single consumer: the generator, the number of promises
    created so far and the items yielded so far. *)
Record sys := {
  queue : t;
  gen : generator;
  promises : nat;
  yielded : list V
}.

Definition init : sys :=
  {| queue := constructor; gen := Idle; promises := 0; yielded := [] |}.

(** What happens to the queue: a producer pushes, or the consumer takes its
    next turn ([next()] on an idle generator, the queued continuation of a
    resumable one; an awaiting generator cannot run). *)
Inductive event :=
| Push (item : V)
| Pull.

Definition resumed (c : list Lock.call) (g : generator) : generator :=
  match g with
  | Awaiting w => if decide (w ∈ Lock.wakes c) then Resumable else g
  | _ => g
  end.

Definition step (e : event) (s : sys) : option sys :=
  match e with
  | Push item =>
      let '(q, c) := push item (queue s) in
      Some {| queue := q; gen := resumed c (gen s);
              promises := promises s; yielded := yielded s |}
  | Pull =>
      match gen s with
      | Idle =>
          '(q, _, r) ← pop_enter (promises s) (queue s);
          Some match r with
               | Some item =>
                   {| queue := q; gen := Idle;
                      promises := promises s;
                      yielded := yielded s ++ [item] |}
               | None =>
                   {| queue := q; gen := Awaiting (promises s);
                      promises := S (promises s);
                      yielded := yielded s |}
               end
      | Resumable =>
          '(q, _, r) ← pop_resume (queue s);
          Some {| queue := q; gen := Idle;
                  promises := promises s;
                  yielded := yielded s ++ option_list r |}
      | Awaiting _ => Some s
      end
  end.

Fixpoint run (es : list event) (s : sys) : option sys :=
  match es with
  | [] => Some s
  | e :: es' => s' ← step e s; run es' s'
  end.

(** The items pushed by a sequence of events, in order. *)
Definition pushed (es : list event) : list V :=
  es ≫= λ e, match e with Push item => [item] | Pull => [] end.

(** The items in the queue: the values met from [head] along [next]. *)
Fixpoint walk (fuel : nat) (h : list QueueElement) (cur : option addr) : list V :=
  match fuel, cur with
  | S fuel', Some a =>
      match h !! a with
      | Some e => value e :: walk fuel' h (next e)
      | None => []
      end
  | _, _ => []
  end.

Definition items (q : t) : list V := walk (length (heap q)) (heap q) (head q).

(** The shape of the heap: [cells] are the elements from head to tail with
    their values; each points back to its predecessor ([p] for the first) and
    forward to its successor, and [last] is the final one. *)
Fixpoint chain (h : list QueueElement) (p : option addr)
    (cells : list (addr * V)) (last : option addr) : Prop :=
  match cells with
  | [] => last = p
  | (a, v) :: rest =>
      h !! a = Some {| prev := p; next := fst <$> list.head rest; value := v |}
      ∧ chain h (Some a) rest last
  end.

Definition repr (q : t) (cells : list (addr * V)) : Prop :=
  head q = fst <$> list.head cells
  ∧ chain (heap q) None cells (tail q)
  ∧ NoDup cells.*1.

(** A well-formed queue: a doubly-linked list from [head] to [tail]. *)
Definition wf (q : t) : Prop := ∃ cells, repr q cells.

(** What the generator and the lock must agree on, given the cells in the
    queue: a waiter is registered exactly while the generator awaits, and
    then the queue is empty; a resumable generator has an item to take. *)
Definition gen_ok (s : sys) (cells : list (addr * V)) : Prop :=
  match gen s with
  | Idle => Lock.resolve (lock (queue s)) = None
  | Awaiting w => Lock.resolve (lock (queue s)) = Some w ∧ cells = []
  | Resumable => Lock.resolve (lock (queue s)) = None ∧ cells ≠ []
  end.

(** The state of a queue and its consumer after the items [p] were pushed. *)
Definition consistent (s : sys) (p : list V) (cells : list (addr * V)) : Prop :=
  repr (queue s) cells ∧ p = yielded s ++ cells.*2 ∧ gen_ok s cells.

End Queue.

Arguments prev {V} _.
Arguments next {V} _.
Arguments value {V} _.
Arguments heap {V} _.
Arguments head {V} _.
Arguments tail {V} _.
Arguments lock {V} _.
Arguments constructor {V}.
Arguments set_next {V} _ _.
Arguments set_prev {V} _ _.
Arguments link {V} _ _.
Arguments push {V} _ _.
Arguments dequeue {V} _.
Arguments pop_enter {V} _ _.
Arguments pop_resume {V} _.
Arguments queue {V} _.
Arguments gen {V} _.
Arguments promises {V} _.
Arguments yielded {V} _.
Arguments init {V}.
Arguments Push {V} _.
Arguments Pull {V}.
Arguments step {V} _ _.
Arguments run {V} _ _.
Arguments pushed {V} _.
Arguments walk {V} _ _ _.
Arguments items {V} _.
Arguments chain {V} _ _ _ _.
Arguments repr {V} _ _.
Arguments wf {V} _.
Arguments gen_ok {V} _ _.
Arguments consistent {V} _ _ _.

End TaskQueue.

(** ** WorkerPool (lines 133-205) *)

Module WorkerPool.

(** [worker.postMessage(value)] copies [value] with the structured clone
    algorithm and throws a [DataCloneError] on a value that cannot be copied
    (a function, a symbol).  [cloneable d] tells whether the payload [d]
    can be copied. *)
Class Cloneable (D : Type) := cloneable : D → bool.

Section Pool.
(** Payloads and results are opaque to the pool, apart from what
    [postMessage] needs to know of a payload. *)
Variables (D R : Type).
Context `{!Cloneable D}.

(** The message posted to a worker: [{ id, data }]. *)
Record Task := { id : string; data : D }.

(** The fields of the pool.  The worker handles are opaque: [workers] is
    their number, handle [i] being the worker of slot [i].  A notification
    is the [resolve] function of the promise that one call of [addTask]
    returned; these promises are numbered in the order of the calls. *)
Record t := {
  workers : nat;
  availability : AvailabilityQueue.t;
  taskQueue : TaskQueue.t Task;
  notifications : gmap string nat
}.

(** What a piece of code does to the outside, in program order: it fulfils
    a promise, calls a method of one of the two locks, or posts a task to a
    worker.  (Console output is left out.) *)
Inductive effect :=
| Fulfil (promise : nat) (result : R)
| AvailabilityLock (c : Lock.call)
| QueueLock (c : Lock.call)
| Post (workerId : nat) (task : Task).

(** The pool that [getInstance] builds, before any worker is online: the
    fields of lines 142-146 and one handle per slot (line 174). *)
Definition create (poolSize : nat) : t :=
  {| workers := poolSize;
     availability := AvailabilityQueue.constructor poolSize;
     taskQueue := TaskQueue.constructor;
     notifications := ∅ |}.

(** The ["message"] handler of worker [workerId], lines 154-161, run on a
    message [{ id, result }]. *)
Definition on_message (workerId : nat) (id : string) (result : R) (p : t)
  : t * list effect :=
  let notification := notifications p !! id in
  let table := delete id (notifications p) in
  let notified :=
    match notification with
    | Some promise => [Fulfil promise result]
    | None => []
    end in
  let '(a, c) := AvailabilityQueue.enable workerId (availability p) in
  ({| workers := workers p; availability := a; taskQueue := taskQueue p;
      notifications := table |},
   notified ++ (AvailabilityLock <$> c)).

(** The ["exit"] handler, lines 162-165. *)
Definition on_exit (workerId : nat) (p : t) : t * list effect :=
  ({| workers := workers p;
      availability := AvailabilityQueue.freeze workerId (availability p);
      taskQueue := taskQueue p;
      notifications := notifications p |}, []).

(** The ["error"] handler, lines 166-168: console output only. *)
Definition on_error (workerId : nat) (p : t) : t * list effect := (p, []).

(** The ["online"] handler, lines 169-173. *)
Definition on_online (workerId : nat) (p : t) : t * list effect :=
  let '(a, c) := AvailabilityQueue.enable workerId (availability p) in
  ({| workers := workers p; availability := a; taskQueue := taskQueue p;
      notifications := notifications p |}, AvailabilityLock <$> c).

(** The executor of [addTask], lines 200-202, with the value [uuid] that
    [crypto.randomUUID()] returned and the promise under construction. *)
Definition addTask (uuid : string) (promise : nat) (payload : D) (p : t)
  : t * list effect :=
  let table := <[uuid := promise]> (notifications p) in
  let '(q, c) := TaskQueue.push {| id := uuid; data := payload |} (taskQueue p) in
  ({| workers := workers p; availability := availability p; taskQueue := q;
      notifications := table |},
   QueueLock <$> c).

(** The promises a trace fulfils; the lock calls in it; the number of
    [acquire()] calls among them, that is of suspensions on a lock. *)
Definition fulfilled (fx : list effect) : list (nat * R) :=
  fx ≫= λ e, match e with Fulfil promise r => [(promise, r)] | _ => [] end.

Definition queue_calls (fx : list effect) : list Lock.call :=
  fx ≫= λ e, match e with QueueLock c => [c] | _ => [] end.

Definition availability_calls (fx : list effect) : list Lock.call :=
  fx ≫= λ e, match e with AvailabilityLock c => [c] | _ => [] end.

Definition suspensions (fx : list effect) : nat :=
  (Lock.acquires (queue_calls fx) + Lock.acquires (availability_calls fx))%nat.

(** The tasks a trace posts, with the worker each one goes to. *)
Definition posted (fx : list effect) : list (nat * D) :=
  fx ≫= λ e, match e with Post workerId task => [(workerId, data task)] | _ => [] end.

(** *** The dispatcher: [start], lines 184-192 *)

(** Where the body of [for await] stands inside [getAvailability]. *)
Inductive claim :=
| Runnable                    (* entering it, or resumed from its [await] *)
| Waiting (w : Lock.waiter).  (* suspended at [await this.lock.acquire()] *)

(** Where the loop of [start] stands between two atomic pieces. *)
Inductive dispatcher :=
| NotStarted
| Popping (g : TaskQueue.generator)   (* waiting for the generator's next item *)
| Claiming (task : Task) (c : claim)  (* holding [task], inside [getAvailability] *)
| Failed.                             (* [start] was rejected by an exception *)

(** A lock call that resumes the dispatcher makes it runnable again. *)
Definition resumed (fx : list effect) (d : dispatcher) : dispatcher :=
  match d with
  | Popping (TaskQueue.Awaiting w) =>
      if decide (w ∈ Lock.wakes (queue_calls fx))
      then Popping TaskQueue.Resumable else d
  | Claiming task (Waiting w) =>
      if decide (w ∈ Lock.wakes (availability_calls fx))
      then Claiming task Runnable else d
  | _ => d
  end.

(** *** The pool in its environment *)

(** [crypto.randomUUID] is outside the program: [randomUUID k] stands for
    the value its [k]-th call returns. *)
Variable randomUUID : nat → string.

(** A pool together with the number of [addTask] calls made so far (the
    next call creates promise number [created] and draws
    [randomUUID created]), the dispatcher, and the number of promises the
    dispatcher created on the locks.  The dispatcher is the loop of the
    first call of [start()], the single consumer the queue is written for.
    A later call of [start()] would run a second loop on the same queue and
    locks, with a generator and waiters of its own; the world has no place
    for it, and what is stated about the progress of the dispatcher is
    stated for at most one call of [start()] ([starts] below). *)
Record world := {
  pool : t;
  created : nat;
  loop : dispatcher;
  promises : nat
}.

(** The pool of lines 142-146 in its environment: no task submitted, the
    dispatcher not started. *)
Definition created_pool (poolSize : nat) : world :=
  {| pool := create poolSize; created := 0; loop := NotStarted; promises := 0 |}.

(** The next atomic piece of [start], if it can run. *)
Definition turn (w : world) : world * list effect :=
  let p := pool w in
  let popped (r : option (TaskQueue.t Task * list Lock.call * option Task)) :=
    match r with
    | None =>
        ({| pool := p; created := created w; loop := Failed;
            promises := promises w |}, [])
    | Some (q, c, Some task) =>
        ({| pool := {| workers := workers p; availability := availability p;
                       taskQueue := q; notifications := notifications p |};
            created := created w;
            loop := Claiming task Runnable;
            promises := promises w |}, QueueLock <$> c)
    | Some (q, c, None) =>
        ({| pool := {| workers := workers p; availability := availability p;
                       taskQueue := q; notifications := notifications p |};
            created := created w;
            loop := Popping (TaskQueue.Awaiting (promises w));
            promises := S (promises w) |}, QueueLock <$> c)
    end in
  match loop w with
  | Popping TaskQueue.Idle =>
      popped (TaskQueue.pop_enter (promises w) (taskQueue p))
  | Popping TaskQueue.Resumable =>
      popped (TaskQueue.pop_resume (taskQueue p))
  | Claiming task Runnable =>
      let '(a, c, r) :=
        AvailabilityQueue.getAvailability (promises w) (availability p) in
      let p' := {| workers := workers p; availability := a;
                   taskQueue := taskQueue p;
                   notifications := notifications p |} in
      match r with
      | AvailabilityQueue.Suspended =>
          ({| pool := p'; created := created w;
              loop := Claiming task (Waiting (promises w));
              promises := S (promises w) |}, AvailabilityLock <$> c)
      | AvailabilityQueue.Returned z =>
          (* [this.workers[workerId].postMessage(task)]: a [TypeError] when
             [workers] has no such element, a [DataCloneError] when the
             payload cannot be copied; either one rejects [start], and the
             task in its hand is lost *)
          if decide (0 ≤ z < Z.of_nat (workers p))%Z then
            if cloneable (data task) then
              ({| pool := p'; created := created w;
                  loop := Popping TaskQueue.Idle;
                  promises := promises w |}, [Post (Z.to_nat z) task])
            else
              ({| pool := p'; created := created w; loop := Failed;
                  promises := promises w |}, [])
          else
            ({| pool := p'; created := created w; loop := Failed;
                promises := promises w |}, [])
      end
  | _ => (w, [])
  end.

Inductive event :=
| AddTask (payload : D)
| Message (workerId : nat) (id : string) (result : R)
| Exit (workerId : nat)
| Error (workerId : nat)
| Online (workerId : nat)
| Start
| Turn.

(** A handler, [addTask] or [start] runs on the pool.  The first [Start]
    starts the dispatcher; a later one is outside the world (see [world])
    and leaves it as it is. *)
Definition handle (e : event) (w : world) : world * list effect :=
  let on (r : t * list effect) :=
    ({| pool := r.1; created := created w; loop := loop w;
        promises := promises w |}, r.2) in
  match e with
  | AddTask payload =>
      let r := addTask (randomUUID (created w)) (created w) payload (pool w) in
      ({| pool := r.1; created := S (created w); loop := loop w;
          promises := promises w |}, r.2)
  | Message workerId id result => on (on_message workerId id result (pool w))
  | Exit workerId => on (on_exit workerId (pool w))
  | Error workerId => on (on_error workerId (pool w))
  | Online workerId => on (on_online workerId (pool w))
  | Start =>
      match loop w with
      | NotStarted =>
          ({| pool := pool w; created := created w;
              loop := Popping TaskQueue.Idle; promises := promises w |}, [])
      | _ => (w, [])
      end
  | Turn => turn w
  end.

(** One event: the code runs, and the dispatcher is resumed if the code
    released the lock it awaits. *)
Definition step (e : event) (w : world) : world * list effect :=
  let '(w', fx) := handle e w in
  ({| pool := pool w'; created := created w'; loop := resumed fx (loop w');
      promises := promises w' |}, fx).

Fixpoint run (es : list event) (w : world) : world * list effect :=
  match es with
  | [] => (w, [])
  | e :: es' =>
      let '(w1, fx1) := step e w in
      let '(w2, fx2) := run es' w1 in
      (w2, fx1 ++ fx2)
  end.

(** [getInstance], lines 141-181, returns the pool once the ["online"]
    handler of each of its workers has run (line 179). *)
Definition getInstance (poolSize : nat) : world :=
  (run (Online <$> seq 0 poolSize) (created_pool poolSize)).1.

(** The payloads submitted by a sequence of events, in order; the task the
    dispatcher holds; the worker an event comes from. *)
Definition submitted (es : list event) : list D :=
  es ≫= λ e, match e with AddTask payload => [payload] | _ => [] end.

(** The number of [start()] calls among the events. *)
Definition starts (es : list event) : nat :=
  length (es ≫= λ e, match e with Start => [()] | _ => [] end).

Definition in_hand (d : dispatcher) : list Task :=
  match d with Claiming task _ => [task] | _ => [] end.

Definition event_worker (e : event) : option nat :=
  match e with
  | Message workerId _ _ | Exit workerId | Error workerId | Online workerId =>
      Some workerId
  | _ => None
  end.

(** What the dispatcher and the lock of the queue must agree on, given the
    cells in the queue (compare [TaskQueue.gen_ok]); the dispatcher has not
    failed. *)
Definition loop_ok (w : world) (cells : list (nat * Task)) : Prop :=
  let registered := Lock.resolve (TaskQueue.lock (taskQueue (pool w))) in
  match loop w with
  | Popping (TaskQueue.Awaiting x) => registered = Some x ∧ cells = []
  | Popping TaskQueue.Resumable => registered = None ∧ cells ≠ []
  | Failed => False
  | _ => registered = None
  end.

(** The state of a running pool after the payloads [sub] were submitted and
    the tasks [post] were posted to workers: every payload submitted was
    posted, is in the dispatcher's hand or is in the queue, in this order;
    the tracker counts its idle slots and has one slot per worker. *)
Definition dispatching (w : world) (sub : list D) (post : list (nat * D)) : Prop :=
  ∃ cells,
    TaskQueue.repr (taskQueue (pool w)) cells
    ∧ sub = post.*2 ++ (data <$> (in_hand (loop w) ++ cells.*2))
    ∧ loop_ok w cells
    ∧ AvailabilityQueue.count_ok (availability (pool w))
    ∧ length (AvailabilityQueue.availability (availability (pool w)))
      = workers (pool w).

(** A dispatcher suspended in [getAvailability] is the waiter registered on
    the lock of the tracker, and the count of the tracker is not positive. *)
Definition waiting_ok (w : world) : Prop :=
  match loop w with
  | Claiming _ (Waiting x) =>
      (AvailabilityQueue.availabilityCount (availability (pool w)) ≤ 0)%Z
      ∧ Lock.resolve (AvailabilityQueue.lock (availability (pool w))) = Some x
  | _ => True
  end.

(** The tasks a trace posts, as they are sent, with the worker each one
    goes to; the tasks that [addTask] builds from the payloads [payloads]
    when the first of the calls is call number [first]. *)
Definition posted_tasks (fx : list effect) : list (nat * Task) :=
  fx ≫= λ e, match e with Post workerId task => [(workerId, task)] | _ => [] end.

Definition tasks_from (first : nat) (payloads : list D) : list Task :=
  imap (λ k payload, {| id := randomUUID (first + k); data := payload |}) payloads.

(** The promises [F] already fulfilled have no entry left in the table. *)
Definition settled (w : world) (F : list nat) : Prop :=
  NoDup F
  ∧ ∀ promise, promise ∈ F →
      (promise < created w)%nat
      ∧ ∀ k, notifications (pool w) !! k ≠ Some promise.

(** The flag of slot [s] in the tracker of the pool. *)
Definition slot_flag (s : nat) (w : world) : bool :=
  AvailabilityQueue.read s (AvailabilityQueue.availability (availability (pool w))).

(** The invariant of the pool: the task queue is well formed, and every
    entry of the table was registered by an earlier [addTask] call, the
    promise of that call under the id that call drew. *)
Definition table_ok (w : world) : Prop :=
  ∀ k promise, notifications (pool w) !! k = Some promise →
               (promise < created w)%nat ∧ k = randomUUID promise.

Definition world_ok (w : world) : Prop :=
  TaskQueue.wf (taskQueue (pool w)) ∧ table_ok w.

End Pool.

Arguments id {D} _.
Arguments data {D} _.
Arguments workers {D} _.
Arguments availability {D} _.
Arguments taskQueue {D} _.
Arguments notifications {D} _.
Arguments Fulfil {D R} _ _.
Arguments AvailabilityLock {D R} _.
Arguments QueueLock {D R} _.
Arguments Post {D R} _ _.
Arguments create {D} _.
Arguments on_message {D R} _ _ _ _.
Arguments on_exit {D R} _ _.
Arguments on_error {D R} _ _.
Arguments on_online {D R} _ _.
Arguments addTask {D R} _ _ _ _.
Arguments fulfilled {D R} _.
Arguments queue_calls {D R} _.
Arguments availability_calls {D R} _.
Arguments suspensions {D R} _.
Arguments posted {D R} _.
Arguments NotStarted {D}.
Arguments Popping {D} _.
Arguments Claiming {D} _ _.
Arguments Failed {D}.
Arguments resumed {D R} _ _.
Arguments pool {D} _.
Arguments created {D} _.
Arguments loop {D} _.
Arguments promises {D} _.
Arguments created_pool {D} _.
Arguments turn {D R} {_} _.
Arguments AddTask {D R} _.
Arguments Message {D R} _ _ _.
Arguments Exit {D R} _.
Arguments Error {D R} _.
Arguments Online {D R} _.
Arguments Start {D R}.
Arguments Turn {D R}.
Arguments handle {D R} {_} _ _ _.
Arguments step {D R} {_} _ _ _.
Arguments run {D R} {_} _ _ _.
Arguments getInstance {D R} {_} _ _.
Arguments submitted {D R} _.
Arguments starts {D R} _.
Arguments in_hand {D} _.
Arguments event_worker {D R} _.
Arguments loop_ok {D} _ _.
Arguments dispatching {D} _ _ _.
Arguments slot_flag {D} _ _.
Arguments waiting_ok {D} _.
Arguments posted_tasks {D R} _.
Arguments tasks_from {D} _ _ _.
Arguments settled {D} _ _.
Arguments table_ok {D} _ _.
Arguments world_ok {D} _ _.

End WorkerPool.

(** ** The worker script (worker.ts) *)

Module Worker.

Section Worker.
Variable D : Type.

(** [`${data}`]: the string a template literal makes of a payload. *)
Variable toString : D → string.

(** [const workerId = threadId - 1], line 3. *)
Definition workerId (threadId : nat) : Z := (Z.of_nat threadId - 1)%Z.

(** The ["message"] handler, lines 4-10, in the thread [threadId]: the
    message [{ id, result }] it posts to the parent for the task received,
    once the two seconds of its loop have passed. *)
Definition on_message (threadId : nat) (task : WorkerPool.Task D)
  : string * string :=
  (WorkerPool.id task,
   "[Worker " +:+ pretty (workerId threadId) +:+ "]: Echo "
     +:+ toString (WorkerPool.data task)).

End Worker.

Arguments on_message {D} _ _ _.

End Worker.

(** ** Payloads of the examples *)

(** The payloads of [app.ts] are numbers and strings, which the structured
    clone algorithm copies. *)
#[global] Instance nat_cloneable : WorkerPool.Cloneable nat := λ _, true.
#[global] Instance string_cloneable : WorkerPool.Cloneable string := λ _, true.

(** * Properties *)

(** ** The lock *)

Section LockFacts.
Import Lock.

Lemma wakes_app c1 c2 : wakes (c1 ++ c2) = wakes c1 ++ wakes c2.
Proof. unfold wakes. apply bind_app. Qed.

Lemma release_spec l :
  release l = ({| resolve := None |}, [Release (resolve l)]).
Proof. destruct l as [[w|]]; reflexivity. Qed.

(** Only [release] resumes anybody. *)
Lemma run_no_signal os l : Signal ∉ os → wakes (run os l).2 = [].
Proof.
  revert l. induction os as [|o os IH]; intros l Hos; simpl; [done|].
  apply not_elem_of_cons in Hos as [Ho Hos].
  destruct o as [w|]; [|done]. simpl.
  specialize (IH {| resolve := Some w |} Hos).
  destruct (run os _) as [l2 c2]. simpl in *. exact IH.
Qed.

(** A waiter that is neither registered nor registered again is never
    resumed. *)
Lemma run_unregistered w os l :
  resolve l ≠ Some w → Wait w ∉ os → w ∉ wakes (run os l).2.
Proof.
  revert l. induction os as [|o os IH]; intros l Hl Hos; simpl.
  - apply not_elem_of_nil.
  - apply not_elem_of_cons in Hos as [Ho Hos].
    destruct o as [w'|]; simpl.
    + specialize (IH {| resolve := Some w' |}).
      destruct (run os _) as [l2 c2]. simpl in *. apply IH; [|done].
      intros [= ->]. by apply Ho.
    + rewrite release_spec.
      specialize (IH {| resolve := None |}).
      destruct (run os _) as [l2 c2]. simpl in *.
      rewrite elem_of_app. intros [H|H].
      * destruct (resolve l) as [w'|] eqn:E.
        -- apply list_elem_of_singleton in H. congruence.
        -- by apply not_elem_of_nil in H.
      * revert H. by apply IH.
Qed.

(** C6. The lock (the Gate of the specification).  (1) [release] resumes
    the waiter that is registered, if there is one, and nobody else, and
    leaves no waiter registered.  (2) A [release] with no waiter registered
    changes nothing: an [acquire] that follows it registers its waiter,
    which is not resumed by anything short of a later [release], and is
    resumed by the next one.  (3) A second [acquire] replaces the
    registration of the first: the first waiter is never resumed, whatever
    calls follow. *)
Theorem lock_signal_wait_orphan (l : t) (w w1 w2 : waiter) (os : list op) :
  (wakes (release l).2 = option_list (resolve l)
   ∧ resolve (release l).1 = None)
  ∧ (resolve l = None →
     (release l).1 = l
     ∧ wakes (release l).2 = []
     ∧ resolve (run [Signal; Wait w] l).1 = Some w
     ∧ (Signal ∉ os → wakes (run (Signal :: Wait w :: os) l).2 = [])
     ∧ wakes (run [Signal; Wait w; Signal] l).2 = [w])
  ∧ (resolve (run [Wait w1; Wait w2] l).1 = Some w2
     ∧ wakes (run [Wait w1; Wait w2; Signal] l).2 = [w2]
     ∧ (w1 ≠ w2 → Wait w1 ∉ os →
        w1 ∉ wakes (run (Wait w1 :: Wait w2 :: os) l).2)).
Proof.
  split; [|split].
  - rewrite release_spec. simpl. by destruct (resolve l).
  - intros Hl. destruct l as [r]. simpl in Hl. subst r.
    repeat split; try reflexivity.
    intros Hsig. simpl.
    pose proof (run_no_signal os {| resolve := Some w |} Hsig) as H.
    destruct (run os _) as [l2 c2]. exact H.
  - split; [reflexivity|]. split; [reflexivity|].
    intros Hne Hos. simpl.
    pose proof (run_unregistered w1 os {| resolve := Some w2 |}) as H.
    destruct (run os _) as [l2 c2]. simpl in *. apply H; [|done].
    intros [= ->]. by apply Hne.
Qed.

(** A fresh lock; promise 1 waits after an unheard signal; promise 2 is
    orphaned by promise 3, and the two signals that follow resume 3 only. *)
Lemma lock_signal_wait_orphan_witness :
  (2%nat ≠ 3%nat)
  ∧ (Wait 2 ∉ [Signal; Signal])
  ∧ wakes (run [Signal; Wait 1; Signal] constructor).2 = [1%nat]
  ∧ wakes (run [Wait 2; Wait 3; Signal; Signal] constructor).2 = [3%nat]
  ∧ (2%nat ∉ [3%nat]).
Proof.
  assert (Wait 2 ∉ [Signal; Signal]) as Hos.
  { rewrite !not_elem_of_cons. repeat split; try discriminate.
    apply not_elem_of_nil. }
  assert (2%nat ≠ 3%nat) as Hne by discriminate.
  pose proof (lock_signal_wait_orphan constructor 1%nat 2%nat 3%nat
                [Signal; Signal]) as (_ & H2 & _ & _ & H3).
  specialize (H2 eq_refl) as (_ & _ & _ & _ & H2).
  split; [exact Hne|]. split; [exact Hos|]. split; [exact H2|].
  split; [reflexivity|exact (H3 Hne Hos)].
Defined.

End LockFacts.

(** ** The availability array *)

Section Availability.
Import AvailabilityQueue.
Local Open Scope Z_scope.

Lemma count_true_cons b l :
  count_true (b :: l) = ((if b then 1 else 0) + count_true l)%nat.
Proof.
  unfold count_true. destruct b.
  - rewrite filter_cons_True by done. reflexivity.
  - rewrite filter_cons_False by done. reflexivity.
Qed.

Lemma count_true_app l1 l2 :
  count_true (l1 ++ l2) = (count_true l1 + count_true l2)%nat.
Proof. unfold count_true. by rewrite filter_app, length_app. Qed.

Lemma count_true_replicate_false n : count_true (replicate n false) = 0%nat.
Proof. induction n as [|n IH]; [done|]. simpl. rewrite count_true_cons. by rewrite IH. Qed.

Lemma count_true_insert_true l id :
  l !! id = Some false → count_true (<[id := true]> l) = S (count_true l).
Proof.
  revert id. induction l as [|b l IH]; intros [|id] H; simplify_eq/=.
  - by rewrite !count_true_cons.
  - rewrite !count_true_cons, (IH id) by done. lia.
Qed.

Lemma count_true_insert_false l id :
  l !! id = Some true → S (count_true (<[id := false]> l)) = count_true l.
Proof.
  revert id. induction l as [|b l IH]; intros [|id] H; simplify_eq/=.
  - by rewrite !count_true_cons.
  - rewrite !count_true_cons, <- (IH id) by done. lia.
Qed.

Lemma count_true_pos l : (0 < count_true l)%nat → ∃ i, l !! i = Some true.
Proof.
  induction l as [|b l IH]; [unfold count_true; simpl; lia|].
  rewrite count_true_cons. destruct b.
  - intros _. by exists 0%nat.
  - intros H. destruct IH as [i Hi]; [simpl in H; lia|]. by exists (S i).
Qed.

Lemma read_true id l : read id l = true ↔ l !! id = Some true.
Proof.
  unfold read. destruct (l !! id) as [[]|]; simpl; split; intros; congruence.
Qed.

Lemma read_false id l :
  read id l = false ↔ l !! id = Some false ∨ (length l ≤ id)%nat.
Proof.
  unfold read. destruct (l !! id) as [[]|] eqn:E; simpl.
  - split; [done|]. intros [?|Hge]; [done|].
    apply lookup_lt_Some in E. lia.
  - split; auto.
  - apply lookup_ge_None in E. split; auto.
Qed.

Lemma write_in_range id b l :
  (id < length l)%nat → write id b l = <[id := b]> l.
Proof. intros. unfold write. by rewrite decide_True. Qed.

Lemma read_write_eq id b l : read id (write id b l) = b.
Proof.
  unfold write, read. case_decide.
  - by rewrite list_lookup_insert_eq.
  - rewrite lookup_app_r by lia. rewrite lookup_app_r; rewrite length_replicate; [|lia].
    replace (id - length l - (id - length l))%nat with 0%nat by lia. done.
Qed.

Lemma read_write_ne id j b l :
  id ≠ j → read j (write id b l) = read j l.
Proof.
  intros Hne. unfold write, read. case_decide.
  - by rewrite list_lookup_insert_ne.
  - destruct (decide (j < length l)%nat).
    + by rewrite lookup_app_l.
    + rewrite (proj2 (lookup_ge_None l j)) by lia. simpl.
      rewrite lookup_app_r by lia.
      destruct (decide (j - length l < id - length l)%nat).
      * rewrite lookup_app_l by (rewrite length_replicate; lia).
        rewrite lookup_replicate_2; [done|lia].
      * rewrite lookup_app_r by (rewrite length_replicate; lia).
        rewrite length_replicate.
        destruct (j - length l - (id - length l))%nat as [|k] eqn:E; [lia|].
        done.
Qed.

Lemma length_write id b l :
  length (write id b l) = (length l `max` S id)%nat.
Proof.
  unfold write. case_decide.
  - rewrite length_insert. lia.
  - rewrite !length_app, length_replicate. simpl. lia.
Qed.

Lemma count_true_write_true id l :
  read id l = false → count_true (write id true l) = S (count_true l).
Proof.
  intros [H|H]%read_false.
  - rewrite write_in_range by (by eapply lookup_lt_Some).
    by apply count_true_insert_true.
  - unfold write. rewrite decide_False by lia.
    rewrite !count_true_app, count_true_replicate_false.
    rewrite count_true_cons. unfold count_true at 2. simpl. lia.
Qed.

Lemma count_true_write_false id l :
  read id l = true → S (count_true (write id false l)) = count_true l.
Proof.
  intros H%read_true.
  rewrite write_in_range by (by eapply lookup_lt_Some).
  by apply count_true_insert_false.
Qed.

End Availability.

(** ** The availability tracker *)

Section Tracker.
Import AvailabilityQueue.
Local Open Scope Z_scope.

Lemma freeze_count_ok id a : count_ok a → count_ok (freeze id a).
Proof.
  unfold count_ok, idle_slots, freeze. intros H.
  destruct (read id (availability a)) eqn:E; [|done]. simpl.
  apply count_true_write_false in E. lia.
Qed.

Lemma enable_count_ok id a : count_ok a → count_ok (enable id a).1.
Proof.
  unfold count_ok, idle_slots, enable. intros H.
  destruct (read id (availability a)) eqn:E; simpl; [done|].
  destruct (Lock.release (lock a)) as [l c]. simpl.
  apply count_true_write_true in E. lia.
Qed.

(** What the loop of [getAvailability] does from counter [id] on. *)
Lemma scan_spec fuel id a :
  (∃ i, (id ≤ i < id + fuel)%nat ∧ read i (availability a) = true ∧
        (∀ j, (id ≤ j < i)%nat → read j (availability a) = false) ∧
        scan fuel id a = (freeze i a, Z.of_nat i))
  ∨ ((∀ j, (id ≤ j < id + fuel)%nat → read j (availability a) = false) ∧
     scan fuel id a = (a, -1)).
Proof.
  revert id. induction fuel as [|fuel IH]; intros id; simpl.
  - right. split; [intros; lia|done].
  - destruct (read id (availability a)) eqn:E.
    + left. exists id. split; [lia|]. split; [done|]. split; [intros; lia|done].
    + destruct (IH (S id)) as [(i & Hi & Ht & Hlow & Hs)|[Hall Hs]].
      * left. exists i. split; [lia|]. split; [done|]. split; [|done].
        intros j Hj. destruct (decide (j = id)) as [->|]; [done|].
        apply Hlow. lia.
      * right. split; [|done]. intros j Hj.
        destruct (decide (j = id)) as [->|]; [done|]. apply Hall. lia.
Qed.

Lemma scan_count_ok fuel id a : count_ok a → count_ok (scan fuel id a).1.
Proof.
  intros H. destruct (scan_spec fuel id a) as [(i & _ & _ & _ & ->)|[_ ->]]; simpl.
  - by apply freeze_count_ok.
  - done.
Qed.

Lemma getAvailability_count_ok w a : count_ok a → count_ok (getAvailability w a).1.1.
Proof.
  intros H. unfold getAvailability. case_decide; simpl; [done|].
  pose proof (scan_count_ok (length (availability a)) 0 a H) as H'.
  by destruct (scan _ _ _).
Qed.

Lemma step_count_ok o a : count_ok a → count_ok (step o a).1.1.
Proof.
  intros H. destruct o as [id|id|w]; simpl.
  - by apply freeze_count_ok.
  - pose proof (enable_count_ok id a H). by destruct (enable id a).
  - pose proof (getAvailability_count_ok w a H).
    by destruct (getAvailability w a) as [[??]?].
Qed.

Lemma run_count_ok os a : count_ok a → count_ok (state (run os a)).
Proof.
  revert a. induction os as [|o os IH]; intros a H; simpl; [done|].
  pose proof (step_count_ok o a H) as H1.
  destruct (step o a) as [[a1 c1] r1]. simpl in H1.
  specialize (IH a1 H1). by destruct (run os a1) as [[a2 c2] r2].
Qed.

Lemma constructor_count_ok size : count_ok (constructor size).
Proof.
  unfold count_ok, idle_slots. simpl. by rewrite count_true_replicate_false.
Qed.

(** C1. Initially and after any sequence of [freeze], [enable] and
    [getAvailability] operations on a tracker of any size, the stored
    [availabilityCount] equals the number of slots whose availability flag
    is [true]. *)
Theorem availabilityCount_counts_idle_flags (size : nat) (os : list op) :
  let a := state (run os (constructor size)) in
  availabilityCount a
  = Z.of_nat (length (filter (λ b, b = true) (availability a))).
Proof. apply (run_count_ok os), constructor_count_ok. Qed.

(** [freeze] writes only inside the array, and only the slot it names. *)
Lemma freeze_availability id a :
  availability (freeze id a) = <[id := false]> (availability a).
Proof.
  unfold freeze. destruct (read id (availability a)) eqn:E; simpl.
  - apply read_true, lookup_lt_Some in E. by apply write_in_range.
  - apply read_false in E as [E|E].
    + by rewrite list_insert_id.
    + by rewrite list_insert_ge.
Qed.

Lemma freeze_read_ne id j a :
  read j (availability a) = false → read j (availability (freeze id a)) = false.
Proof.
  rewrite freeze_availability. intros H.
  destruct (decide (id = j)) as [->|Hne].
  - unfold read in *. destruct (decide (j < length (availability a))%nat).
    + by rewrite list_lookup_insert_eq.
    + by rewrite list_insert_ge by lia.
  - unfold read in *. by rewrite list_lookup_insert_ne.
Qed.

Lemma freeze_read_eq id a : read id (availability (freeze id a)) = false.
Proof.
  destruct (read id (availability a)) eqn:E.
  - unfold freeze. rewrite E. simpl. apply read_write_eq.
  - by apply freeze_read_ne.
Qed.

(** The outcome of one run of [getAvailability]. *)
Lemma getAvailability_spec w a :
  (availabilityCount a ≤ 0 ∧
   getAvailability w a
   = ({| availability := availability a;
         availabilityCount := availabilityCount a;
         lock := {| Lock.resolve := Some w |} |}, [Lock.Acquire w], Suspended))
  ∨ (0 < availabilityCount a ∧
     ∃ i, (i < length (availability a))%nat ∧
          availability a !! i = Some true ∧
          (∀ j, (j < i)%nat → read j (availability a) = false) ∧
          getAvailability w a = (freeze i a, [], Returned (Z.of_nat i)))
  ∨ (0 < availabilityCount a ∧
     (∀ j, read j (availability a) = false) ∧
     getAvailability w a = (a, [], Returned (-1))).
Proof.
  unfold getAvailability. case_decide as Hc.
  - left. by split.
  - right.
    destruct (scan_spec (length (availability a)) 0 a)
      as [(i & Hi & Ht & Hlow & ->)|[Hall ->]].
    + left. split; [lia|]. exists i. split; [lia|].
      split; [by apply read_true|]. split; [|done].
      intros j Hj. apply Hlow. lia.
    + right. split; [lia|]. split; [|done]. intros j.
      destruct (decide (j < length (availability a))%nat).
      * apply Hall. lia.
      * apply read_false. right. lia.
Qed.
(** C2. In every tracker state with idle-count > 0 and at least one idle
    slot, [getAvailability] returns the smallest slot id whose flag is
    [true]; the state it leaves differs from the one it found exactly in
    that slot's flag, now [false], and in the count, one less; it makes no
    call on the lock.  With slots 0, 2, 3 idle and slot 1 busy it returns
    0. *)
Theorem getAvailability_claims_lowest_idle (w : Lock.waiter) (a : t) :
  0 < availabilityCount a →
  (∃ i, availability a !! i = Some true) →
  (∃ id : nat,
      availability a !! id = Some true ∧
      (∀ j, (j < id)%nat → availability a !! j = Some false) ∧
      getAvailability w a
      = ({| availability := <[id := false]> (availability a);
            availabilityCount := availabilityCount a - 1;
            lock := lock a |}, [], Returned (Z.of_nat id)))
  ∧ (availability a = [true; false; true; true] →
     (getAvailability w a).2 = Returned 0).
Proof.
  intros Hpos [i0 Hi0].
  destruct (getAvailability_spec w a)
    as [[Hle _]|[(_ & i & Hi & Ht & Hlow & Hg)|(_ & Hall & _)]].
  - lia.
  - assert (getAvailability w a
            = ({| availability := <[i := false]> (availability a);
                  availabilityCount := availabilityCount a - 1;
                  lock := lock a |}, [], Returned (Z.of_nat i))) as Hg'.
    { rewrite Hg. f_equal. f_equal. unfold freeze.
      rewrite (proj2 (read_true _ _) Ht). by rewrite write_in_range. }
    split.
    + exists i. split; [done|]. split; [|done].
      intros j Hj. destruct (proj1 (read_false _ _) (Hlow j Hj)); [done|lia].
    + intros Ha. rewrite Hg'. simpl. f_equal.
      destruct i as [|i]; [done|]. specialize (Hlow 0%nat).
      rewrite Ha in Hlow. unfold read in Hlow. simpl in Hlow.
      discriminate Hlow. lia.
  - specialize (Hall i0). apply read_true in Hi0. congruence.
Qed.

(** The tracker with slots 0, 2, 3 idle and slot 1 busy. *)
Lemma getAvailability_claims_lowest_idle_witness :
  getAvailability 7%nat {| availability := [true; false; true; true];
                       availabilityCount := 3;
                       lock := Lock.constructor |}
  = ({| availability := [false; false; true; true];
        availabilityCount := 2;
        lock := Lock.constructor |}, [], Returned 0).
Proof.
  destruct (getAvailability_claims_lowest_idle 7%nat
              {| availability := [true; false; true; true];
                 availabilityCount := 3;
                 lock := Lock.constructor |}) as [_ H].
  - reflexivity.
  - exists 0%nat. reflexivity.
  - reflexivity.
Defined.

Lemma step_keeps_busy s o a :
  o ≠ Enable s →
  read s (availability a) = false →
  read s (availability (step o a).1.1) = false ∧ Z.of_nat s ∉ (step o a).2.
Proof.
  intros Ho Hs. destruct o as [id|id|w]; simpl.
  - split; [by apply freeze_read_ne|]. apply not_elem_of_nil.
  - unfold enable. destruct (read id (availability a)) eqn:E; simpl.
    + split; [done|apply not_elem_of_nil].
    + destruct (Lock.release (lock a)) as [l c]. simpl.
      split; [|apply not_elem_of_nil].
      rewrite read_write_ne; [done|]. intros ->. by apply Ho.
  - destruct (getAvailability_spec w a)
      as [[_ ->]|[(_ & i & _ & Ht & _ & ->)|(_ & _ & ->)]]; simpl.
    + split; [done|apply not_elem_of_nil].
    + split; [by apply freeze_read_ne|].
      rewrite list_elem_of_singleton. intros Heq%Nat2Z.inj. subst i.
      apply read_true in Ht. congruence.
    + split; [done|]. rewrite list_elem_of_singleton. lia.
Qed.

Lemma run_keeps_busy s os a :
  Enable s ∉ os →
  read s (availability a) = false →
  Z.of_nat s ∉ results (run os a).
Proof.
  revert a. induction os as [|o os IH]; intros a Hos Hs; simpl.
  - apply not_elem_of_nil.
  - apply not_elem_of_cons in Hos as [Ho Hos].
    destruct (step_keeps_busy s o a) as [H1 H2]; [congruence|done|].
    destruct (step o a) as [[a1 c1] r1]. simpl in *.
    specialize (IH a1 Hos H1).
    destruct (run os a1) as [[a2 c2] r2]. unfold results in *. simpl in *.
    rewrite elem_of_app. tauto.
Qed.

(** C8. Retirement: after [freeze s], as long as no [enable s] follows,
    no [getAvailability] call returns [s], whatever operations are
    interleaved on the other slots (and whatever further [freeze s] or
    [getAvailability] calls). *)
Theorem retired_slot_never_claimed (s : nat) (a : t) (os : list op) :
  Enable s ∉ os →
  Z.of_nat s ∉ results (run os (freeze s a)).
Proof. intros H. apply run_keeps_busy; [done|]. apply freeze_read_eq. Qed.

(** Slot 1 of a three-slot tracker with slots 0 and 1 idle is retired;
    the two later claims return 0 and, after slot 2 comes up, 2. *)
Lemma retired_slot_never_claimed_witness :
  (Enable 1%nat ∉ [GetAvailability 0%nat; Enable 2; Freeze 1; GetAvailability 1%nat])
  ∧ ((1 : Z) ∉ [0; 2])
  ∧ results (run [GetAvailability 0%nat; Enable 2; Freeze 1; GetAvailability 1%nat]
               (freeze 1%nat {| availability := [true; true; false];
                            availabilityCount := 2;
                            lock := Lock.constructor |})) = [0; 2].
Proof.
  assert (Enable 1%nat ∉ [GetAvailability 0%nat; Enable 2; Freeze 1; GetAvailability 1%nat])
    as Hno.
  { rewrite !not_elem_of_cons. repeat split; try discriminate.
    apply not_elem_of_nil. }
  split; [exact Hno|]. split; [|reflexivity].
  exact (retired_slot_never_claimed 1%nat
           {| availability := [true; true; false];
              availabilityCount := 2;
              lock := Lock.constructor |} _ Hno).
Defined.

Lemma getAvailability_valid_slot w a :
  count_ok a →
  match (getAvailability w a).2 with
  | Suspended => availabilityCount a ≤ 0
  | Returned z =>
      0 < availabilityCount a ∧
      0 ≤ z < Z.of_nat (length (availability a)) ∧
      availability a !! Z.to_nat z = Some true
  end.
Proof.
  intros Hok.
  destruct (getAvailability_spec w a)
    as [[Hle ->]|[(Hpos & i & Hi & Ht & _ & ->)|(Hpos & Hall & _)]]; simpl.
  - done.
  - rewrite Nat2Z.id. split; [done|]. split; [lia|done].
  - exfalso. unfold count_ok, idle_slots in Hok.
    destruct (count_true_pos (availability a)) as [i Hi]; [lia|].
    apply read_true in Hi. specialize (Hall i). congruence.
Qed.

(** C10. In a tracker state where [availabilityCount] is the number of
    [true] flags, one run of [getAvailability] either suspends, and then
    [availabilityCount <= 0], or runs the scan, and then
    [availabilityCount > 0] and the value returned is the id of a slot of
    the array whose flag was [true]: it lies in [0, N) for N the number of
    slots, and is never the fallback [-1]. *)
Theorem getAvailability_fallback_unreachable (w : Lock.waiter) (a : t) :
  availabilityCount a
  = Z.of_nat (length (filter (λ b, b = true) (availability a))) →
  match (getAvailability w a).2 with
  | Suspended => availabilityCount a ≤ 0
  | Returned z =>
      0 < availabilityCount a ∧
      0 ≤ z < Z.of_nat (length (availability a)) ∧
      z ≠ -1 ∧
      availability a !! Z.to_nat z = Some true
  end.
Proof.
  intros Hok. pose proof (getAvailability_valid_slot w a Hok) as H.
  destruct ((getAvailability w a).2) as [z|]; [|done].
  destruct H as (? & ? & ?). repeat split; try done; lia.
Qed.

(** Two slots, the second one idle: the scan passes slot 0 and returns 1. *)
Lemma getAvailability_fallback_unreachable_witness :
  (getAvailability 0%nat {| availability := [false; true];
                            availabilityCount := 1;
                            lock := Lock.constructor |}).2 = Returned 1
  ∧ 0 ≤ 1 < 2.
Proof.
  pose proof (getAvailability_fallback_unreachable 0%nat
                {| availability := [false; true];
                   availabilityCount := 1;
                   lock := Lock.constructor |} eq_refl) as H.
  split; [reflexivity|]. simpl in H. destruct H as (_ & H & _). exact H.
Defined.

Lemma step_length o a n :
  (∀ id, op_slot o = Some id → (id < n)%nat) →
  length (availability a) = n →
  length (availability (step o a).1.1) = n.
Proof.
  intros Ho Hn. destruct o as [id|id|w]; simpl.
  - by rewrite freeze_availability, length_insert.
  - unfold enable. destruct (read id (availability a)); simpl; [done|].
    destruct (Lock.release (lock a)). simpl.
    rewrite length_write. specialize (Ho id eq_refl). lia.
  - destruct (getAvailability_spec w a)
      as [[_ ->]|[(_ & i & _ & _ & _ & ->)|(_ & _ & ->)]]; simpl; [done| |done].
    by rewrite freeze_availability, length_insert.
Qed.

(** In a pool of [size] workers, where every handler names a slot below
    [size], every value [getAvailability] returns is a slot id below
    [size]. *)
Lemma run_results_in_range size os a :
  Forall (λ o, ∀ id, op_slot o = Some id → (id < size)%nat) os →
  count_ok a →
  length (availability a) = size →
  Forall (λ z, 0 ≤ z < Z.of_nat size) (results (run os a)).
Proof.
  revert a. induction os as [|o os IH]; intros a Hos Hok Hlen; simpl.
  - constructor.
  - apply Forall_cons in Hos as [Ho Hos].
    pose proof (step_count_ok o a Hok) as Hok1.
    pose proof (step_length o a size Ho Hlen) as Hlen1.
    assert (Forall (λ z, 0 ≤ z < Z.of_nat size) (step o a).2) as Hr1.
    { destruct o as [id|id|w]; simpl.
      - constructor.
      - destruct (enable id a). constructor.
      - pose proof (getAvailability_valid_slot w a Hok) as H.
        destruct (getAvailability w a) as [[a' c] [z|]]; simpl in *.
        + constructor; [lia|constructor].
        + constructor. }
    destruct (step o a) as [[a1 c1] r1]. simpl in *.
    specialize (IH a1 Hos Hok1 Hlen1).
    destruct (run os a1) as [[a2 c2] r2]. unfold results in *. simpl in *.
    by apply Forall_app.
Qed.


End Tracker.

(** ** The task queue *)

Section Queue.
Import TaskQueue.
Context {V : Type}.
Implicit Types (h : list (QueueElement V)) (q : t V) (s : sys V).
Implicit Types (cells : list (addr * V)) (p last : option addr).

Lemma chain_frame h h' p cells last :
  (∀ a, a ∈ cells.*1 → h' !! a = h !! a) →
  chain h p cells last → chain h' p cells last.
Proof.
  revert p. induction cells as [|[a v] rest IH]; intros p Hfr; simpl; [done|].
  intros [Ha Hrest]. split.
  - rewrite Hfr; [done|]. simpl. apply list_elem_of_here.
  - apply IH; [|done]. intros b Hb. apply Hfr. simpl. by apply list_elem_of_further.
Qed.

Lemma chain_bound h p cells last a :
  chain h p cells last → a ∈ cells.*1 → (a < length h)%nat.
Proof.
  revert p. induction cells as [|[b v] rest IH]; intros p; simpl.
  - intros _ H. by apply elem_of_nil in H.
  - intros [Hb Hrest] [->|H]%elem_of_cons.
    + by eapply lookup_lt_Some.
    + by eapply IH.
Qed.

Lemma chain_last h p cells last :
  chain h p cells last → cells ≠ [] → ∃ a, last = Some a ∧ a ∈ cells.*1.
Proof.
  revert p. induction cells as [|[b v] rest IH]; intros p; simpl; [done|].
  intros [Hb Hrest] _. destruct rest as [|c rest].
  - simpl in Hrest. exists b. split; [done|]. apply list_elem_of_here.
  - destruct (IH _ Hrest) as (a & -> & Ha); [done|].
    exists a. split; [done|]. by apply list_elem_of_further.
Qed.

Lemma chain_empty h p last : chain h p [] last ↔ last = p.
Proof. done. Qed.

(** Walking from the head meets the cells in order. *)
Lemma walk_chain h p cells last fuel :
  chain h p cells last → (length cells ≤ fuel)%nat →
  walk fuel h (fst <$> list.head cells) = cells.*2.
Proof.
  revert p fuel. induction cells as [|[a v] rest IH]; intros p fuel; simpl.
  - intros _ _. by destruct fuel.
  - intros [Ha Hrest] Hlen. destruct fuel as [|fuel]; [lia|]. simpl.
    rewrite Ha. simpl. f_equal. eapply IH; [done|lia].
Qed.

Lemma NoDup_bounded_length (l : list nat) n :
  NoDup l → (∀ a, a ∈ l → (a < n)%nat) → (length l ≤ n)%nat.
Proof.
  intros Hnd Hlt. rewrite <- (length_seq n 0).
  apply submseteq_length, NoDup_submseteq; [done|].
  intros a Ha. apply elem_of_seq. specialize (Hlt a Ha). lia.
Qed.

Lemma items_repr q cells : repr q cells → items q = cells.*2.
Proof.
  intros (Hh & Hc & Hnd). unfold items. rewrite Hh.
  eapply walk_chain; [done|].
  rewrite <- (length_fmap fst). apply NoDup_bounded_length; [done|].
  intros a Ha. by eapply chain_bound.
Qed.

Lemma repr_head_None q cells : repr q cells → (head q = None ↔ cells = []).
Proof.
  intros (Hh & _ & _). rewrite Hh. by destruct cells.
Qed.

Lemma repr_tail_None q cells : repr q cells → (tail q = None ↔ cells = []).
Proof.
  intros (_ & Hc & _). destruct cells as [|c rest].
  - simpl in Hc. by rewrite Hc.
  - destruct (chain_last _ _ _ _ Hc) as (a & -> & _); [done|]. done.
Qed.

Lemma constructor_repr : repr (@constructor V) [].
Proof. split; [done|]. split; [done|]. constructor. Qed.

(** Linking a new element behind a non-empty chain. *)
Lemma chain_snoc h p cells al (x : V) :
  cells ≠ [] →
  NoDup cells.*1 →
  chain h p cells (Some al) →
  chain (alter (set_next (Some (length h))) al
           (h ++ [{| prev := Some al; next := None; value := x |}]))
        p (cells ++ [(length h, x)]) (Some (length h)).
Proof.
  set (n := length h).
  set (h' := alter _ _ _).
  revert p. induction cells as [|[a v] rest IH]; intros p Hne Hnd Hc; [done|].
  simpl in Hc. destruct Hc as [Ha Hrest].
  assert (a < n)%nat as Han by (by eapply lookup_lt_Some).
  rewrite fmap_cons in Hnd. apply NoDup_cons in Hnd as [Hnotin Hnd].
  simpl in Hnotin.
  destruct rest as [|[b u] rest].
  - simpl in Hrest. injection Hrest as ->. simpl. split; [|split; [|done]].
    + unfold h'. rewrite list_lookup_alter_eq, lookup_app_l by done.
      by rewrite Ha.
    + unfold h'. rewrite list_lookup_alter_ne by lia.
      unfold n. by rewrite list_lookup_middle.
  - split.
    + destruct (chain_last _ _ _ _ Hrest) as (a' & [= <-] & Hal); [done|].
      assert (al ≠ a) as Hal_ne by (intros ->; contradiction).
      unfold h'. rewrite list_lookup_alter_ne by done.
      rewrite lookup_app_l by done. by rewrite Ha.
    + by apply IH.
Qed.

Lemma link_repr (x : V) q cells :
  repr q cells → repr (link x q) (cells ++ [(length (heap q), x)]).
Proof.
  intros (Hh & Hc & Hnd). unfold link.
  assert (NoDup (cells ++ [(length (heap q), x)]).*1) as Hnd'.
  { rewrite fmap_app. apply NoDup_app. split; [done|]. split.
    - intros a Ha [->|H]%elem_of_cons.
      + simpl in Ha. pose proof (chain_bound _ _ _ _ _ Hc Ha). lia.
      + by apply elem_of_nil in H.
    - apply NoDup_singleton. }
  destruct cells as [|c rest].
  - simpl in Hc. rewrite Hc. split; [done|]. split; [|done]. simpl.
    split; [|done]. by rewrite list_lookup_middle.
  - destruct (chain_last _ _ _ _ Hc) as (al & Htl & _); [done|].
    rewrite Htl. split; [|split; [|done]].
    + simpl. rewrite Hh. done.
    + simpl heap. simpl tail. apply chain_snoc; [done|done|]. by rewrite <- Htl.
Qed.

Lemma push_spec (x : V) q :
  push x q
  = ({| heap := heap (link x q); head := head (link x q);
        tail := tail (link x q); lock := {| Lock.resolve := None |} |},
     [Lock.Release (Lock.resolve (lock q))]).
Proof.
  unfold push. rewrite release_spec.
  assert (lock (link x q) = lock q) as ->; [|done].
  unfold link. by destruct (tail q).
Qed.

Lemma repr_lock q l cells :
  repr q cells →
  repr {| heap := heap q; head := head q; tail := tail q; lock := l |} cells.
Proof. done. Qed.

Lemma push_repr (x : V) q cells :
  repr q cells → repr (push x q).1 (cells ++ [(length (heap q), x)]).
Proof.
  intros H. rewrite push_spec. simpl. apply repr_lock. by apply link_repr.
Qed.

(** Unlinking the head of a non-empty chain. *)
Lemma dequeue_repr q a (v : V) rest :
  repr q ((a, v) :: rest) →
  ∃ q', dequeue q = Some (v, q') ∧ repr q' rest ∧ lock q' = lock q.
Proof.
  intros (Hh & Hc & Hnd). simpl in Hh, Hc. destruct Hc as [Ha Hrest].
  rewrite fmap_cons in Hnd. apply NoDup_cons in Hnd as [Hnotin Hnd].
  simpl in Hnotin.
  unfold dequeue. rewrite Hh. simpl. rewrite Ha. simpl.
  destruct rest as [|[b u] rest].
  - simpl in Hrest. rewrite Hrest, decide_True by done.
    eexists. split; [done|]. split; [|done].
    split; [done|]. split; [done|]. constructor.
  - destruct (chain_last _ _ _ _ Hrest) as (al & Htl & Hal); [done|].
    rewrite decide_False.
    2:{ rewrite Htl. intros [= ->]. done. }
    simpl. eexists. split; [done|]. split; [|done].
    split; [done|]. split; [|done].
    simpl in Hrest. destruct Hrest as [Hb Hrest]. simpl. split.
    + rewrite list_lookup_alter_eq, Hb. done.
    + eapply chain_frame; [|done]. intros c Hc.
      apply list_lookup_alter_ne. intros ->.
      apply NoDup_cons in Hnd as [Hb' _]. done.
Qed.

Lemma dequeue_empty q : repr q [] → dequeue q = None.
Proof. intros (Hh & _ & _). unfold dequeue. by rewrite Hh. Qed.


(** *** The queue with its consumer *)

Lemma step_push s pu cells (x : V) :
  consistent s pu cells →
  ∃ s', step (Push x) s = Some s'
        ∧ consistent s' (pu ++ [x]) (cells ++ [(length (heap (queue s)), x)]).
Proof.
  intros (Hr & Hp & Hg). unfold step.
  pose proof (push_repr x _ _ Hr) as Hr'. rewrite push_spec in *.
  eexists. split; [done|]. split; [exact Hr'|]. split.
  - simpl. rewrite Hp, fmap_app. simpl. by rewrite (assoc_L (++)).
  - unfold gen_ok in *. simpl. destruct (gen s) as [|w|]; simpl.
    + done.
    + destruct Hg as [-> ->]. simpl. rewrite decide_True by apply list_elem_of_here.
      done.
    + split; [done|]. by destruct cells.
Qed.

Lemma step_pull_item s pu a (v : V) rest :
  consistent s pu ((a, v) :: rest) →
  ∃ s', step Pull s = Some s'
        ∧ consistent s' pu rest
        ∧ yielded s' = yielded s ++ [v].
Proof.
  intros (Hr & Hp & Hg). unfold step.
  destruct (dequeue_repr _ _ _ _ Hr) as (q' & Hd & Hr' & Hl).
  pose proof (proj1 Hr) as Hh. simpl in Hh.
  unfold gen_ok in Hg. destruct (gen s) as [|w|] eqn:Eg.
  - unfold pop_enter. rewrite Hh, Hd. simpl.
    eexists. split; [done|]. split; [|done]. split; [done|]. split.
    + simpl. rewrite Hp. simpl. by rewrite <- (assoc_L (++)).
    + unfold gen_ok. simpl. by rewrite Hl.
  - by destruct Hg as [_ ?].
  - unfold pop_resume. rewrite Hd. simpl.
    eexists. split; [done|]. split; [|done]. split; [done|]. split.
    + simpl. rewrite Hp. simpl. by rewrite <- (assoc_L (++)).
    + unfold gen_ok. simpl. rewrite Hl. by destruct Hg.
Qed.

Lemma step_pull_empty s pu :
  consistent s pu [] →
  ∃ s', step Pull s = Some s'
        ∧ consistent s' pu []
        ∧ yielded s' = yielded s.
Proof.
  intros (Hr & Hp & Hg). unfold step.
  pose proof (proj1 Hr) as Hh. simpl in Hh.
  unfold gen_ok in Hg. destruct (gen s) as [|w|] eqn:Eg.
  - unfold pop_enter. rewrite Hh. simpl.
    eexists. split; [done|]. split; [|done]. split; [|split; [done|]].
    + destruct Hr as (_ & Hc & Hnd). split; [done|]. by split.
    + unfold gen_ok. simpl. done.
  - eexists. split; [done|]. split; [|done]. split; [done|]. split; [done|].
    unfold gen_ok. by rewrite Eg.
  - by destruct Hg as [_ ?].
Qed.

Lemma step_consistent e s pu cells :
  consistent s pu cells →
  ∃ s' cells', step e s = Some s' ∧ consistent s' (pu ++ pushed [e]) cells'.
Proof.
  intros H. destruct e as [x|].
  - destruct (step_push _ _ _ x H) as (s' & ? & ?). eexists s', _. by split.
  - unfold pushed. simpl. rewrite (right_id_L [] (++)).
    destruct cells as [|[a v] rest].
    + destruct (step_pull_empty _ _ H) as (s' & ? & ? & _). by exists s', [].
    + destruct (step_pull_item _ _ _ _ _ H) as (s' & ? & ? & _). by exists s', rest.
Qed.

Lemma run_cons (e : event V) es s : run (e :: es) s = step e s ≫= run es.
Proof. done. Qed.

Lemma pushed_cons (e : event V) es : pushed (e :: es) = pushed [e] ++ pushed es.
Proof. unfold pushed. simpl. by rewrite (right_id_L [] (++)). Qed.

Lemma run_consistent es s pu cells :
  consistent s pu cells →
  ∃ s' cells', run es s = Some s' ∧ consistent s' (pu ++ pushed es) cells'.
Proof.
  revert s pu cells. induction es as [|e es IH]; intros s pu cells H.
  - exists s, cells. split; [done|]. unfold pushed. simpl.
    by rewrite (right_id_L [] (++)).
  - destruct (step_consistent e _ _ _ H) as (s1 & cells1 & Hs & H1).
    destruct (IH _ _ _ H1) as (s2 & cells2 & Hr & H2).
    exists s2, cells2. split.
    + rewrite run_cons, Hs. exact Hr.
    + by rewrite pushed_cons, (assoc_L (++)).
Qed.

(** With the queue non-empty every turn of the consumer yields an item: as
    many turns as there are items empty the queue. *)
Lemma run_drain s pu cells :
  consistent s pu cells →
  ∃ s', run (replicate (length cells) Pull) s = Some s'
        ∧ consistent s' pu []
        ∧ yielded s' = pu.
Proof.
  revert s. induction cells as [|[a v] rest IH]; intros s H.
  - exists s. split; [done|]. split; [done|].
    destruct H as (_ & -> & _). simpl. by rewrite (right_id_L [] (++)).
  - destruct (step_pull_item _ _ _ _ _ H) as (s1 & Hs & H1 & _).
    destruct (IH _ H1) as (s2 & Hr & H2).
    exists s2. split; [|done].
    change (length ((a, v) :: rest)) with (S (length rest)).
    rewrite replicate_S, run_cons, Hs. exact Hr.
Qed.

Lemma run_app (es1 es2 : list (event V)) s :
  run (es1 ++ es2) s = run es1 s ≫= run es2.
Proof.
  revert s. induction es1 as [|e es1 IH]; intros s; simpl; [done|].
  destruct (step e s) as [s1|]; simpl; [apply IH|done].
Qed.

Lemma init_consistent : consistent (@init V) [] [].
Proof. split; [apply constructor_repr|]. split; done. Qed.

(** Every run from the new queue ends in a consistent state. *)
Lemma run_init es :
  ∃ s cells, run es (@init V) = Some s ∧ consistent s (pushed es) cells.
Proof. apply (run_consistent es init [] []), init_consistent. Qed.

(** C3. Whatever the interleaving of pushes and consumer turns, [pop] never
    fails, and the items pushed so far are exactly the items yielded so far
    followed by the items still in the queue: the n-th item yielded is the
    n-th item pushed.  No item is lost: as many further consumer turns as
    there are items in the queue yield all of them, so that the sequence
    yielded is the sequence pushed. *)
Theorem pop_yields_in_push_order (es : list (event V)) :
  ∃ s, run es init = Some s
       ∧ pushed es = yielded s ++ items (queue s)
       ∧ (∀ n x, yielded s !! n = Some x → pushed es !! n = Some x)
       ∧ ∃ s', run (es ++ replicate (length (items (queue s))) Pull) init = Some s'
               ∧ yielded s' = pushed es
               ∧ items (queue s') = [].
Proof.
  destruct (run_init es) as (s & cells & Hrun & Hc).
  pose proof Hc as (Hr & Hp & _).
  pose proof (items_repr _ _ Hr) as Hi.
  exists s. split; [done|]. split; [by rewrite Hi|]. split.
  - intros n x Hn. rewrite Hp. by apply lookup_app_l_Some.
  - destruct (run_drain _ _ _ Hc) as (s' & Hd & (Hr' & _) & Hy).
    exists s'. rewrite run_app, Hrun. simpl.
    rewrite Hi, length_fmap. split; [done|]. split; [done|].
    by rewrite (items_repr _ _ Hr').
Qed.


Lemma repr_nulls q cells :
  repr q cells →
  (head q = None ↔ tail q = None) ∧ (head q = None ↔ items q = []).
Proof.
  intros H. rewrite (repr_head_None _ _ H), (repr_tail_None _ _ H).
  rewrite (items_repr _ _ H). split; [done|]. by destruct cells.
Qed.

Lemma dequeue_wf q (v : V) q' : wf q → dequeue q = Some (v, q') → wf q'.
Proof.
  intros [[|[a u] rest] H] Hd.
  - by rewrite (dequeue_empty _ H) in Hd.
  - destruct (dequeue_repr _ _ _ _ H) as (q1 & Hd1 & Hr & _).
    rewrite Hd in Hd1. injection Hd1 as -> ->. by exists rest.
Qed.

Lemma pop_enter_wf (w : nat) q q' c (r : option V) :
  wf q → pop_enter w q = Some (q', c, r) → wf q'.
Proof.
  intros Hwf. unfold pop_enter. destruct (head q) eqn:Hh.
  - destruct (dequeue q) as [[item q1]|] eqn:Hd; [|done].
    simpl. intros [= <- _ _]. by eapply dequeue_wf.
  - simpl. intros [= <- _ _]. destruct Hwf as [cells (H1 & H2 & H3)].
    exists cells. split; [simpl; congruence|]. by split.
Qed.

Lemma pop_resume_wf q q' c (r : option V) :
  wf q → pop_resume q = Some (q', c, r) → wf q'.
Proof.
  intros Hwf. unfold pop_resume.
  destruct (dequeue q) as [[item q1]|] eqn:Hd; [|done].
  simpl. intros [= <- _ _]. by eapply dequeue_wf.
Qed.

(** C9. After any sequence of pushes and consumer turns from the new queue,
    the queue is a well-formed doubly-linked list, [head] is [undefined] iff
    [tail] is, and they are iff the queue holds no item, which is iff
    every item pushed has been yielded.  The new queue is well formed;
    well-formedness is kept by [push] and by the dequeue of [pop], and gives
    the two equivalences in any queue [q]. *)
Theorem head_tail_null_iff_empty (es : list (event V)) (q : t V) (x : V) :
  (∃ s, run es init = Some s
        ∧ wf (queue s)
        ∧ (head (queue s) = None ↔ tail (queue s) = None)
        ∧ (head (queue s) = None ↔ items (queue s) = [])
        ∧ (items (queue s) = [] ↔ yielded s = pushed es))
  ∧ wf (@constructor V)
  ∧ (wf q →
     (head q = None ↔ tail q = None)
     ∧ (head q = None ↔ items q = [])
     ∧ wf (push x q).1
     ∧ (∀ v q', dequeue q = Some (v, q') → wf q')).
Proof.
  split; [|split].
  - destruct (run_init es) as (s & cells & Hrun & (Hr & Hp & _)).
    exists s. split; [done|]. split; [by exists cells|].
    destruct (repr_nulls _ _ Hr) as [H1 H2]. split; [done|]. split; [done|].
    rewrite (items_repr _ _ Hr), Hp. split.
    + intros ->. by rewrite (right_id_L [] (++)).
    + intros H. symmetry in H. rewrite <- (right_id_L [] (++) (yielded s)) in H at 2.
      by apply (inj (app _)) in H.
  - exists []. apply constructor_repr.
  - intros [cells Hr]. destruct (repr_nulls _ _ Hr) as [H1 H2].
    split; [done|]. split; [done|]. split.
    + eexists. by apply push_repr.
    + intros v q'. apply dequeue_wf. by exists cells.
Qed.

(** [push] makes exactly one call on the lock, a [release()], in any
    queue. *)
Lemma push_calls (x : V) q :
  (push x q).2 = [Lock.Release (Lock.resolve (lock q))]
  ∧ Lock.releases (push x q).2 = 1%nat.
Proof. by rewrite push_spec. Qed.

(** [push] writes the new element and the [next] field of the old tail,
    nothing else. *)
Lemma push_footprint (x : V) q a :
  length (heap (push x q).1) = S (length (heap q))
  ∧ ((a < length (heap q))%nat → tail q ≠ Some a →
     heap (push x q).1 !! a = heap q !! a).
Proof.
  rewrite push_spec. unfold link. simpl.
  destruct (tail q) as [al|]; simpl.
  - rewrite length_alter, length_app. simpl. split; [lia|].
    intros Ha Hne. rewrite list_lookup_alter_ne by congruence.
    by rewrite lookup_app_l.
  - rewrite length_app. simpl. split; [lia|].
    intros Ha _. by rewrite lookup_app_l.
Qed.



End Queue.

Section QueueExamples.
Import TaskQueue.

(** The queue holding 5 then 6, reached by two pushes: neither pointer is
    null, a push and a dequeue keep it well formed. *)
Lemma head_tail_null_iff_empty_witness :
  wf (push 6%nat (push 5%nat constructor).1).1
  ∧ wf (push 7%nat (push 6%nat (push 5%nat constructor).1).1).1
  ∧ (∀ (v : nat) (q' : t nat),
       dequeue (push 6%nat (push 5%nat constructor).1).1 = Some (v, q')
       → wf q').
Proof.
  assert (wf (push 6%nat (push 5%nat constructor).1).1) as Hwf.
  { exists [(0%nat, 5%nat); (1%nat, 6%nat)].
    split; [reflexivity|]. split.
    - simpl. repeat split; reflexivity.
    - apply (NoDup_seq 0 2). }
  split; [exact Hwf|].
  destruct (head_tail_null_iff_empty [] (push 6%nat (push 5%nat constructor).1).1
              7%nat) as (_ & _ & H).
  destruct (H Hwf) as (_ & _ & Hp & Hd).
  split; [exact Hp|exact Hd].
Defined.

End QueueExamples.


(** ** The pool *)

Section Pool.
Import WorkerPool.
Context {D R : Type} `{!Cloneable D}.
Variable randomUUID : nat → string.
Implicit Types (p : t D) (w : world D).

Lemma enable_marks_idle id a :
  AvailabilityQueue.read id
    (AvailabilityQueue.availability (AvailabilityQueue.enable id a).1) = true.
Proof.
  unfold AvailabilityQueue.enable.
  destruct (AvailabilityQueue.read id (AvailabilityQueue.availability a)) eqn:E;
    simpl; [done|].
  destruct (Lock.release (AvailabilityQueue.lock a)). simpl.
  apply read_write_eq.
Qed.

Lemma on_message_spec workerId k (result : R) p :
  on_message workerId k result p
  = ({| workers := workers p;
        availability := (AvailabilityQueue.enable workerId (availability p)).1;
        taskQueue := taskQueue p;
        notifications := delete k (notifications p) |},
     match notifications p !! k with
     | Some promise => [Fulfil promise result]
     | None => []
     end
     ++ (AvailabilityLock <$> (AvailabilityQueue.enable workerId (availability p)).2)).
Proof.
  unfold on_message. by destruct (AvailabilityQueue.enable _ _).
Qed.

Lemma addTask_spec uuid promise (payload : D) p :
  addTask (R:=R) uuid promise payload p
  = ({| workers := workers p;
        availability := availability p;
        taskQueue := (TaskQueue.push {| id := uuid; data := payload |} (taskQueue p)).1;
        notifications := <[uuid := promise]> (notifications p) |},
     QueueLock <$> (TaskQueue.push {| id := uuid; data := payload |} (taskQueue p)).2).
Proof.
  unfold addTask. by destruct (TaskQueue.push _ _).
Qed.

(** The invariant of the pool only reads the table, the task queue and the
    number of [addTask] calls. *)
Lemma world_ok_frame w w' :
  TaskQueue.wf (taskQueue (pool w')) →
  notifications (pool w') = notifications (pool w) →
  created w' = created w →
  world_ok randomUUID w → world_ok randomUUID w'.
Proof.
  intros Hq Hn Hc [Hwf Ht]. split; [done|].
  intros k promise. rewrite Hn, Hc. apply Ht.
Qed.

Lemma created_pool_ok poolSize : world_ok randomUUID (created_pool (D:=D) poolSize).
Proof.
  split.
  - exists []. apply constructor_repr.
  - intros k promise H. simpl in H. by rewrite lookup_empty in H.
Qed.

Lemma message_ok workerId k (result : R) w :
  world_ok randomUUID w →
  world_ok randomUUID (handle randomUUID (Message workerId k result) w).1.
Proof.
  intros [Hwf Ht]. simpl. rewrite on_message_spec. simpl. split; [done|].
  intros k' promise. simpl. intros [_ H]%lookup_delete_Some. by apply Ht.
Qed.

Lemma addTask_ok (payload : D) w :
  world_ok randomUUID w →
  world_ok randomUUID (handle (R:=R) randomUUID (AddTask payload) w).1.
Proof.
  intros [Hwf Ht]. simpl. rewrite addTask_spec. simpl. split.
  - simpl. destruct Hwf as [cells Hr]. eexists. by apply push_repr.
  - intros k promise. simpl. intros [[<- <-]|[_ H]]%lookup_insert_Some.
    + split; [lia|done].
    + destruct (Ht _ _ H). split; [lia|done].
Qed.

(** The dispatcher changes the task queue by the pieces of [pop] only, and
    leaves the table alone. *)
Lemma turn_ok w :
  world_ok randomUUID w → world_ok randomUUID (turn (R:=R) w).1.
Proof.
  intros Hok. pose proof Hok as [Hwf _]. unfold turn.
  destruct (loop w) as [|[| |]|task [|]|]; try done.
  - destruct (TaskQueue.pop_enter _ _) as [[[q c] [task|]]|] eqn:E; simpl.
    + apply (world_ok_frame w); [|done..]. by eapply pop_enter_wf.
    + apply (world_ok_frame w); [|done..]. by eapply pop_enter_wf.
    + by apply (world_ok_frame w).
  - destruct (TaskQueue.pop_resume _) as [[[q c] [task|]]|] eqn:E; simpl.
    + apply (world_ok_frame w); [|done..]. by eapply pop_resume_wf.
    + apply (world_ok_frame w); [|done..]. by eapply pop_resume_wf.
    + by apply (world_ok_frame w).
  - destruct (AvailabilityQueue.getAvailability _ _) as [[a c] [z|]]; simpl.
    + case_decide; [destruct (cloneable _)|]; by apply (world_ok_frame w).
    + by apply (world_ok_frame w).
Qed.

Lemma handle_ok (e : event D R) w :
  world_ok randomUUID w → world_ok randomUUID (handle randomUUID e w).1.
Proof.
  intros H. pose proof H as [Hwf _].
  destruct e as [payload|workerId k result|workerId|workerId|workerId| |].
  - by apply addTask_ok.
  - by apply message_ok.
  - by apply (world_ok_frame w).
  - by apply (world_ok_frame w).
  - simpl. unfold on_online. destruct (AvailabilityQueue.enable _ _).
    by apply (world_ok_frame w).
  - simpl. destruct (loop w); by apply (world_ok_frame w).
  - by apply turn_ok.
Qed.

Lemma step_ok (e : event D R) w :
  world_ok randomUUID w → world_ok randomUUID (step randomUUID e w).1.
Proof.
  intros H. pose proof (handle_ok e w H) as H'. unfold step.
  destruct (handle randomUUID e w) as [w' fx]. simpl in *.
  destruct H' as [Hwf Ht]. by apply (world_ok_frame w').
Qed.

(** Every state that the handlers, [addTask] and the dispatcher reach from
    a new pool satisfies the invariant. *)
Lemma run_ok (es : list (event D R)) w :
  world_ok randomUUID w → world_ok randomUUID (run randomUUID es w).1.
Proof.
  revert w. induction es as [|e es IH]; intros w H; simpl; [done|].
  pose proof (step_ok e w H) as H1.
  destruct (step randomUUID e w) as [w1 fx1]. simpl in H1.
  specialize (IH w1 H1). by destruct (run randomUUID es w1).
Qed.

Lemma step_pool (e : event D R) w :
  pool (step randomUUID e w).1 = pool (handle randomUUID e w).1
  ∧ created (step randomUUID e w).1 = created (handle randomUUID e w).1
  ∧ (step randomUUID e w).2 = (handle randomUUID e w).2.
Proof. unfold step. by destruct (handle randomUUID e w). Qed.

Lemma fulfilled_locks (cs : list Lock.call) :
  fulfilled (D:=D) (R:=R) (AvailabilityLock <$> cs) = []
  ∧ fulfilled (D:=D) (R:=R) (QueueLock <$> cs) = [].
Proof. unfold fulfilled. induction cs as [|c cs [IH1 IH2]]; by split. Qed.

(** C4. The ["message"] handler of a worker on [{ id, result }].  It is
    total: it raises no error in any state.  If the table has a notification
    under [id], the entry is deleted and the promise is fulfilled with
    [result], and after that the slot of the worker is enabled; no entry
    for the fulfilled promise is left in the table.  If the table has no
    entry under [id], the table is unchanged and nothing is fulfilled, but
    the message is not dropped: the slot of the worker is enabled all the
    same (line 160 is not guarded), and if the slot was busy the count goes
    up by one and the lock of the tracker is released.  In both cases the
    slot is idle afterwards, the table has no entry under [id], its other
    entries are untouched, and it holds at most one notification per id. *)
Theorem message_settles_pending_result
    (w : world D) (workerId : nat) (k : string) (result : R) :
  let p := pool w in
  let p' := (on_message workerId k result p).1 in
  let fx := (on_message workerId k result p).2 in
  let enabled := AvailabilityQueue.enable workerId (availability p) in
  (∀ promise,
      notifications p !! k = Some promise →
      notifications p' = delete k (notifications p)
      ∧ fx = Fulfil promise result :: (AvailabilityLock <$> enabled.2)
      ∧ fulfilled fx = [(promise, result)]
      ∧ (world_ok randomUUID w → ∀ k', notifications p' !! k' ≠ Some promise))
  ∧ (notifications p !! k = None →
     notifications p' = notifications p
     ∧ fx = AvailabilityLock <$> enabled.2
     ∧ fulfilled fx = []
     ∧ (AvailabilityQueue.read workerId
          (AvailabilityQueue.availability (availability p)) = false →
        AvailabilityQueue.availabilityCount (availability p')
        = (AvailabilityQueue.availabilityCount (availability p) + 1)%Z
        ∧ fx = [AvailabilityLock
                  (Lock.Release
                     (Lock.resolve (AvailabilityQueue.lock (availability p))))]))
  ∧ availability p' = enabled.1
  ∧ AvailabilityQueue.read workerId
      (AvailabilityQueue.availability (availability p')) = true
  ∧ taskQueue p' = taskQueue p
  ∧ notifications p' !! k = None
  ∧ (∀ k', k' ≠ k → notifications p' !! k' = notifications p !! k')
  ∧ (∀ k' r1 r2, notifications p' !! k' = Some r1 →
                 notifications p' !! k' = Some r2 → r1 = r2)
  ∧ pool (step randomUUID (Message workerId k result) w).1 = p'
  ∧ (world_ok randomUUID w →
     world_ok randomUUID (step randomUUID (Message workerId k result) w).1).
Proof.
  cbv zeta.
  destruct (step_pool (Message workerId k result) w) as (Hp & _ & _).
  pose proof (step_ok (Message workerId k result) w) as Hstep.
  rewrite Hp. clear Hp. cbn [handle fst snd pool].
  rewrite on_message_spec. cbn [fst snd notifications availability taskQueue].
  split; [|split; [|split; [|split; [|split; [|split; [|split; [|split; [|split]]]]]]]].
  - intros promise Hk. rewrite Hk. split; [done|]. split; [done|]. split.
    + simpl. unfold fulfilled. simpl. f_equal.
      apply (proj1 (fulfilled_locks _)).
    + intros [_ Ht] k' [Hne Hk']%lookup_delete_Some.
      destruct (Ht _ _ Hk) as [_ ->]. destruct (Ht _ _ Hk') as [_ ->]. done.
  - intros Hk. rewrite Hk. split; [by apply delete_id|]. split; [done|].
    split; [apply (proj1 (fulfilled_locks _))|].
    intros Hbusy. unfold AvailabilityQueue.enable. rewrite Hbusy.
    cbn [negb]. rewrite release_spec. by split.
  - done.
  - apply enable_marks_idle.
  - done.
  - apply lookup_delete_eq.
  - intros k' Hne. by apply lookup_delete_ne.
  - intros k' r1 r2 H1 H2. congruence.
  - done.
  - done.
Qed.

Section Unique.
(** No two calls of [crypto.randomUUID] return the same value. *)
Hypothesis randomUUID_unique : ∀ i j, randomUUID i = randomUUID j → i = j.

Lemma uuid_fresh w :
  world_ok randomUUID w →
  notifications (pool w) !! randomUUID (created w) = None.
Proof.
  intros [_ Ht].
  destruct (notifications (pool w) !! randomUUID (created w)) as [promise|] eqn:E;
    [|done].
  destruct (Ht _ _ E) as [Hlt Heq]. apply randomUUID_unique in Heq. lia.
Qed.

(** C5. [addTask] in any state of the pool that satisfies the invariant,
    whatever the availability of the workers and wherever the dispatcher
    stands (not started, or suspended with all workers busy), for any
    payload: it is total, so raises no error, and awaits no lock; the id it
    draws has no entry in the table; it registers the new promise under
    that id, leaving the other entries alone, and pushes [{ id, data }] at
    the tail of the task queue, which is one item longer; the availability
    tracker is not touched and no promise is fulfilled. *)
Theorem addTask_registers_then_enqueues (w : world D) (payload : D) :
  world_ok randomUUID w →
  let uuid := randomUUID (created w) in
  let w' := (step (R:=R) randomUUID (AddTask payload) w).1 in
  let fx := (step (R:=R) randomUUID (AddTask payload) w).2 in
  notifications (pool w) !! uuid = None
  ∧ notifications (pool w') = <[uuid := created w]> (notifications (pool w))
  ∧ TaskQueue.items (taskQueue (pool w'))
    = TaskQueue.items (taskQueue (pool w)) ++ [{| id := uuid; data := payload |}]
  ∧ length (TaskQueue.items (taskQueue (pool w')))
    = S (length (TaskQueue.items (taskQueue (pool w))))
  ∧ availability (pool w') = availability (pool w)
  ∧ fx = [QueueLock (Lock.Release (Lock.resolve (TaskQueue.lock (taskQueue (pool w)))))]
  ∧ suspensions fx = 0%nat
  ∧ fulfilled fx = []
  ∧ world_ok randomUUID w'.
Proof.
  intros Hok. pose proof Hok as [[cells Hr] _]. cbv zeta.
  pose proof (step_ok (AddTask (R:=R) payload) w Hok) as Hok'.
  destruct (step_pool (AddTask (R:=R) payload) w) as (Hp & _ & Hfx).
  rewrite Hp, Hfx. clear Hp Hfx. cbn [handle fst snd pool].
  rewrite addTask_spec. cbn [fst snd notifications availability taskQueue].
  assert (TaskQueue.items
            (TaskQueue.push {| id := randomUUID (created w); data := payload |}
               (taskQueue (pool w))).1
          = TaskQueue.items (taskQueue (pool w))
            ++ [{| id := randomUUID (created w); data := payload |}]) as Hitems.
  { rewrite (items_repr _ _ (push_repr _ _ _ Hr)), (items_repr _ _ Hr).
    by rewrite fmap_app. }
  split; [by apply uuid_fresh|]. split; [done|]. split; [done|].
  split; [rewrite Hitems, length_app; simpl; lia|]. split; [done|].
  split; [by rewrite push_spec|]. split; [by rewrite push_spec|].
  split; [by rewrite push_spec|]. exact Hok'.
Qed.

End Unique.

(** *** Retirement in the pool *)

(** The events that run [enable] on slot [s]: a message from, or the
    coming online of, worker [s]. *)
Lemma handle_keeps_busy s (e : event D R) w :
  (∀ k result, e ≠ Message s k result) →
  e ≠ Online s →
  AvailabilityQueue.read s
    (AvailabilityQueue.availability (availability (pool w))) = false →
  AvailabilityQueue.read s
    (AvailabilityQueue.availability
       (availability (pool (handle randomUUID e w).1))) = false
  ∧ ∀ payload, (s, payload) ∉ posted (handle randomUUID e w).2.
Proof.
  intros Hmsg Honl Hs.
  assert (∀ id, id ≠ s →
            AvailabilityQueue.read s
              (AvailabilityQueue.availability
                 (AvailabilityQueue.enable id (availability (pool w))).1) = false)
    as Hen.
  { intros id Hid.
    destruct (step_keeps_busy s (AvailabilityQueue.Enable id)
                (availability (pool w))) as [H _]; [congruence|done|].
    simpl in H. by destruct (AvailabilityQueue.enable id _). }
  assert (∀ cs payload, (s, payload) ∉ posted (D:=D) (R:=R) (AvailabilityLock <$> cs))
    as Hav.
  { intros cs payload. unfold posted.
    induction cs as [|c cs IH]; [apply not_elem_of_nil|exact IH]. }
  assert (∀ cs payload, (s, payload) ∉ posted (D:=D) (R:=R) (QueueLock <$> cs))
    as Hqu.
  { intros cs payload. unfold posted.
    induction cs as [|c cs IH]; [apply not_elem_of_nil|exact IH]. }
  destruct e as [payload|workerId k result|workerId|workerId|workerId| |];
    cbn [handle fst snd pool].
  - rewrite addTask_spec. split; [done|]. intros ?. apply Hqu.
  - rewrite on_message_spec. cbn [fst snd availability]. split.
    + apply Hen. intros ->. by eapply Hmsg.
    + intros payload. unfold posted. rewrite bind_app.
      rewrite elem_of_app. intros [H|H].
      * destruct (notifications (pool w) !! k); simpl in H;
          by apply not_elem_of_nil in H.
      * by apply Hav in H.
  - split; [by apply freeze_read_ne|]. intros ?. apply not_elem_of_nil.
  - split; [done|]. intros ?. apply not_elem_of_nil.
  - unfold on_online.
    specialize (Hen workerId).
    destruct (AvailabilityQueue.enable workerId _) as [a c].
    cbn [fst snd availability]. split.
    + apply Hen. intros ->. by apply Honl.
    + intros ?. apply Hav.
  - destruct (loop w); (split; [done|]); intros ?; apply not_elem_of_nil.
  - unfold turn. destruct (loop w) as [|[| |]|task [|]|];
      try (split; [done|]; intros ?; apply not_elem_of_nil).
    + destruct (TaskQueue.pop_enter _ _) as [[[q c] [task|]]|];
        (split; [done|]); intros ?; first [apply Hqu|apply not_elem_of_nil].
    + destruct (TaskQueue.pop_resume _) as [[[q c] [task|]]|];
        (split; [done|]); intros ?; first [apply Hqu|apply not_elem_of_nil].
    + destruct (step_keeps_busy s (AvailabilityQueue.GetAvailability (promises w))
                  (availability (pool w))) as [H1 H2]; [done|done|].
      simpl in H1, H2.
      destruct (AvailabilityQueue.getAvailability _ _) as [[a c] [z|]];
        cbn [fst snd pool availability] in *.
      * case_decide as Hz; [destruct (cloneable _)|];
          cbn [fst snd pool availability].
        -- split; [done|]. intros payload. unfold posted. simpl.
           rewrite list_elem_of_singleton. intros [= Hsz _].
           apply H2. rewrite list_elem_of_singleton. lia.
        -- split; [done|]. intros ?. apply not_elem_of_nil.
        -- split; [done|]. intros ?. apply not_elem_of_nil.
      * split; [done|]. intros ?. apply Hav.
Qed.

(** X14. After the ["exit"] handler of worker [s] has run, and as long as
    worker [s] neither reports a result nor comes online again, the
    dispatcher posts no task to worker [s]. *)
Lemma exited_worker_gets_no_task s (es : list (event D R)) w :
  (∀ k result, Message s k result ∉ es) →
  Online s ∉ es →
  ∀ payload,
    (s, payload) ∉ posted (run randomUUID es (step randomUUID (Exit (R:=R) s) w).1).2.
Proof.
  intros Hmsg Honl.
  assert (AvailabilityQueue.read s
            (AvailabilityQueue.availability
               (availability (pool (step randomUUID (Exit (R:=R) s) w).1))) = false)
    as Hs by apply freeze_read_eq.
  revert Hs. generalize ((step randomUUID (Exit (R:=R) s) w).1). clear w.
  induction es as [|e es IH]; intros w Hs payload.
  - apply not_elem_of_nil.
  - destruct (handle_keeps_busy s e w) as [H1 H2].
    { intros k result ->. apply (Hmsg k result), list_elem_of_here. }
    { intros ->. apply Honl, list_elem_of_here. }
    { done. }
    destruct (step_pool e w) as (Hp & _ & Hfx).
    rewrite <- Hp in H1. rewrite <- Hfx in H2.
    simpl. destruct (step randomUUID e w) as [w1 fx1]. simpl in *.
    specialize (IH (λ k result H, Hmsg k result (list_elem_of_further _ _ _ H))
                  (λ H, Honl (list_elem_of_further _ _ _ H)) w1 H1 payload).
    destruct (run randomUUID es w1) as [w2 fx2]. simpl in *.
    unfold posted in *. rewrite bind_app, elem_of_app. intros [H|H].
    + by apply (H2 payload).
    + by apply IH.
Qed.

Lemma getInstance_ok poolSize :
  world_ok randomUUID (getInstance (D:=D) (R:=R) randomUUID poolSize).
Proof. apply run_ok, created_pool_ok. Qed.

End Pool.

(** ** The dispatcher *)

Section Dispatch.
Import WorkerPool.
Context {D R : Type} `{!Cloneable D}.
Variable randomUUID : nat → string.
Implicit Types (p : t D) (w : world D) (fx : list (effect D R)).

Lemma posted_app fx1 fx2 : posted (fx1 ++ fx2) = posted fx1 ++ posted fx2.
Proof. unfold posted. apply bind_app. Qed.

Lemma posted_queue_lock (cs : list Lock.call) :
  posted (D:=D) (R:=R) (QueueLock <$> cs) = [].
Proof. unfold posted. induction cs as [|c cs IH]; [done|exact IH]. Qed.

Lemma posted_availability_lock (cs : list Lock.call) :
  posted (D:=D) (R:=R) (AvailabilityLock <$> cs) = [].
Proof. unfold posted. induction cs as [|c cs IH]; [done|exact IH]. Qed.

Lemma queue_calls_queue_lock (cs : list Lock.call) :
  queue_calls (D:=D) (R:=R) (QueueLock <$> cs) = cs.
Proof.
  unfold queue_calls. induction cs as [|c cs IH]; [done|].
  simpl. f_equal. exact IH.
Qed.

Lemma queue_calls_availability_lock (cs : list Lock.call) :
  queue_calls (D:=D) (R:=R) (AvailabilityLock <$> cs) = [].
Proof. unfold queue_calls. induction cs as [|c cs IH]; [done|exact IH]. Qed.

Lemma queue_calls_app fx1 fx2 :
  queue_calls (fx1 ++ fx2) = queue_calls fx1 ++ queue_calls fx2.
Proof. unfold queue_calls. apply bind_app. Qed.

(** A trace without calls on the lock of the queue leaves a dispatcher that
    waits for the queue where it is, and never changes what it holds. *)
Lemma resumed_in_hand fx (d : dispatcher D) :
  in_hand (resumed fx d) = in_hand d.
Proof.
  destruct d as [|[|x|]|task [|x]|]; simpl; try done; by case_decide.
Qed.

Lemma resumed_quiet fx (d : dispatcher D) :
  Lock.wakes (queue_calls fx) = [] →
  (∀ task c, d ≠ Claiming task c) →
  resumed fx d = d.
Proof.
  intros Hq Hd. destruct d as [|[|x|]|task [|x]|]; simpl; try done.
  - rewrite Hq. rewrite decide_False; [done|apply not_elem_of_nil].
  - by destruct (Hd task (Waiting x)).
Qed.

(** [loop_ok] does not tell the two stages of [Claiming] apart, and only
    reads the lock of the queue. *)
Lemma loop_ok_resumed fx w w' cells :
  Lock.wakes (queue_calls fx) = [] →
  taskQueue (pool w') = taskQueue (pool w) →
  loop w' = resumed fx (loop w) →
  loop_ok w cells → loop_ok w' cells.
Proof.
  intros Hq Htq Hl. unfold loop_ok. rewrite Htq, Hl.
  destruct (loop w) as [|[|x|]|task [|x]|]; simpl; try done.
  - rewrite Hq. rewrite decide_False; [done|apply not_elem_of_nil].
  - by case_decide.
Qed.

(** A step that leaves the queue and the dispatcher's hand alone and posts
    nothing keeps the pool dispatching. *)
Lemma dispatching_frame fx w w' sub post :
  Lock.wakes (queue_calls fx) = [] →
  taskQueue (pool w') = taskQueue (pool w) →
  loop w' = resumed fx (loop w) →
  workers (pool w') = workers (pool w) →
  AvailabilityQueue.count_ok (availability (pool w')) →
  length (AvailabilityQueue.availability (availability (pool w')))
  = length (AvailabilityQueue.availability (availability (pool w))) →
  dispatching w sub post → dispatching w' sub post.
Proof.
  intros Hq Htq Hl Hw Hc Hlen (cells & Hr & Hs & Hlo & _ & Hn).
  exists cells. rewrite Htq, Hl, resumed_in_hand, Hw, Hlen.
  split; [done|]. split; [done|]. split; [|by split].
  by eapply loop_ok_resumed.
Qed.

Lemma resumed_nil (d : dispatcher D) : resumed (R:=R) [] d = d.
Proof.
  destruct d as [|[|x|]|task [|x]|]; simpl; try done;
    (rewrite decide_False; [done|apply not_elem_of_nil]).
Qed.

Lemma addTask_dispatching (payload : D) w sub post :
  dispatching w sub post →
  dispatching (step (R:=R) randomUUID (AddTask payload) w).1
    (sub ++ [payload])
    (post ++ posted (step (R:=R) randomUUID (AddTask payload) w).2).
Proof.
  intros (cells & Hr & Hs & Hlo & Hc & Hn).
  unfold step. cbn [handle]. rewrite addTask_spec. cbn [fst snd pool loop created promises].
  rewrite push_spec. cbn [fst snd fmap list_fmap].
  set (task := {| id := randomUUID (created w); data := payload |}).
  pose proof (link_repr task _ _ Hr) as Hr'.
  exists (cells ++ [(length (TaskQueue.heap (taskQueue (pool w))), task)]).
  cbn [pool taskQueue availability workers loop].
  split; [exact Hr'|]. split; [|split; [|by split]].
  - rewrite resumed_in_hand.
    assert (∀ c, posted (D:=D) (R:=R) [QueueLock c] = []) as -> by done.
    rewrite (right_id_L [] (++)), Hs, !fmap_app. simpl.
    by rewrite !(assoc_L (++)).
  - unfold loop_ok in *. cbn [pool taskQueue loop TaskQueue.lock Lock.resolve].
    destruct (loop w) as [|[|x|]|tk [|y]|]; simpl; try done.
    + destruct Hlo as [-> ->]. simpl.
      rewrite decide_True by apply list_elem_of_here. done.
    + split; [done|]. by destruct cells.
Qed.

Lemma enable_length i a :
  (i < length (AvailabilityQueue.availability a))%nat →
  length (AvailabilityQueue.availability (AvailabilityQueue.enable i a).1)
  = length (AvailabilityQueue.availability a).
Proof.
  intros Hi.
  pose proof (step_length (AvailabilityQueue.Enable i) a _
                (λ id H, eq_ind _ (λ j, j < _)%nat Hi _ (Some_inj _ _ H)) eq_refl)
    as H.
  simpl in H. by destruct (AvailabilityQueue.enable i a).
Qed.

Lemma handler_dispatching (e : event D R) w sub post i :
  event_worker e = Some i →
  (i < workers (pool w))%nat →
  dispatching w sub post →
  dispatching (step randomUUID e w).1 sub post
  ∧ posted (step randomUUID e w).2 = [].
Proof.
  intros He Hi Hd. pose proof Hd as (_ & _ & _ & _ & Hc & Hn).
  rewrite <- Hn in Hi. unfold step.
  destruct e as [payload|workerId k result|workerId|workerId|workerId| |];
    simplify_eq/=.
  - rewrite on_message_spec. cbn [fst snd]. split.
    + apply (dispatching_frame
               (match notifications (pool w) !! k with
                | Some promise => [Fulfil promise result]
                | None => []
                end ++ (AvailabilityLock <$>
                          (AvailabilityQueue.enable i (availability (pool w))).2))
               w); try done.
      * rewrite queue_calls_app, queue_calls_availability_lock.
        by destruct (notifications (pool w) !! k).
      * by apply enable_count_ok.
      * by apply enable_length.
    + rewrite posted_app, posted_availability_lock.
      by destruct (notifications (pool w) !! k).
  - split; [|done].
    apply (dispatching_frame [] w); try done.
    + simpl. by apply freeze_count_ok.
    + simpl. by rewrite freeze_availability, length_insert.
  - split; [|done]. by apply (dispatching_frame [] w).
  - unfold on_online.
    pose proof (enable_count_ok i _ Hc) as Hc'.
    pose proof (enable_length i _ Hi) as Hl'.
    destruct (AvailabilityQueue.enable i (availability (pool w))) as [a c].
    cbn [fst snd] in *. split; [|apply posted_availability_lock].
    apply (dispatching_frame (AvailabilityLock <$> c) w); try done.
    by rewrite queue_calls_availability_lock.
Qed.

Lemma start_dispatching w sub post :
  dispatching w sub post →
  dispatching (step (R:=R) randomUUID Start w).1 sub post
  ∧ posted (step (R:=R) randomUUID Start w).2 = [].
Proof.
  intros Hd. pose proof Hd as (_ & _ & _ & _ & Hc & Hn).
  unfold step. cbn [handle].
  destruct (loop w) as [| | |] eqn:El; cbn [fst snd pool created loop promises].
  - split; [|done]. destruct Hd as (cells & Hr & Hs & Hlo & _).
    exists cells. rewrite El in Hs. unfold loop_ok in *. rewrite El in Hlo.
    simpl in *. split; [done|]. split; [done|]. split; [done|]. by split.
  - split; [|done]. by apply (dispatching_frame [] w).
  - split; [|done]. by apply (dispatching_frame [] w).
  - split; [|done]. by apply (dispatching_frame [] w).
Qed.

Lemma getAvailability_length x a :
  length (AvailabilityQueue.availability
            (AvailabilityQueue.getAvailability x a).1.1)
  = length (AvailabilityQueue.availability a).
Proof.
  assert (∀ id, AvailabilityQueue.op_slot (AvailabilityQueue.GetAvailability x)
                = Some id → (id < length (AvailabilityQueue.availability a))%nat)
    as Hno by (intros; discriminate).
  pose proof (step_length (AvailabilityQueue.GetAvailability x) a _ Hno eq_refl)
    as H.
  simpl in H. by destruct (AvailabilityQueue.getAvailability x a) as [[??]?].
Qed.

Lemma turn_dispatching w sub post :
  Forall (λ payload, cloneable payload = true) sub →
  dispatching w sub post →
  dispatching (step (R:=R) randomUUID Turn w).1 sub
    (post ++ posted (step (R:=R) randomUUID Turn w).2).
Proof.
  intros Hcl Hd. pose proof Hd as (cells & Hr & Hs & Hlo & Hc & Hn).
  assert (dispatching (step (R:=R) randomUUID Turn (w)).1 sub (post ++ [])
          → turn (R:=R) w = (w, [])
          → dispatching (step (R:=R) randomUUID Turn w).1 sub
              (post ++ posted (step (R:=R) randomUUID Turn w).2)) as Hidle.
  { intros H Ht. unfold step in *. cbn [handle] in *. by rewrite Ht in *. }
  assert (turn (R:=R) w = (w, []) →
          dispatching (step (R:=R) randomUUID Turn w).1 sub
            (post ++ posted (step (R:=R) randomUUID Turn w).2)) as Hskip.
  { intros Ht. apply Hidle; [|done]. unfold step. cbn [handle]. rewrite Ht.
    rewrite (right_id_L [] (++)). by apply (dispatching_frame [] w). }
  unfold loop_ok in Hlo.
  destruct (loop w) as [|[|x|]|task [|x]|] eqn:El;
    try (apply Hskip; unfold turn; by rewrite El).
  - (* at the top of the loop of [pop] *)
    unfold step. cbn [handle]. unfold turn. rewrite El.
    unfold TaskQueue.pop_enter. destruct cells as [|[a task] rest].
    + rewrite (proj1 Hr). cbn [fmap option_fmap option_map list.head].
      cbn [Lock.acquire fst snd pool created loop promises].
      rewrite posted_queue_lock, (right_id_L [] (++)).
      exists []. cbn [pool taskQueue availability workers loop].
      split; [|split; [|split; [|by split]]].
      * destruct Hr as (H1 & H2 & H3). by repeat split.
      * simpl. by rewrite Hs.
      * unfold loop_ok. simpl. done.
    + destruct (dequeue_repr _ _ _ _ Hr) as (q' & Hdq & Hr' & Hl).
      rewrite (proj1 Hr). cbn [fmap option_fmap option_map list.head].
      rewrite Hdq. cbn [mbind option_bind fst snd pool created loop promises].
      rewrite posted_queue_lock, (right_id_L [] (++)).
      exists rest. cbn [pool taskQueue availability workers loop].
      split; [done|]. split; [|split; [|by split]].
      * simpl. by rewrite Hs.
      * unfold loop_ok. simpl. by rewrite Hl.
  - (* resumed from the [await] of [pop] *)
    unfold step. cbn [handle]. unfold turn. rewrite El.
    unfold TaskQueue.pop_resume. destruct Hlo as [Hlk Hne].
    destruct cells as [|[a task] rest]; [done|].
    destruct (dequeue_repr _ _ _ _ Hr) as (q' & Hdq & Hr' & Hl).
    rewrite Hdq. cbn [mbind option_bind fst snd pool created loop promises].
    rewrite posted_queue_lock, (right_id_L [] (++)).
    exists rest. cbn [pool taskQueue availability workers loop].
    split; [done|]. split; [|split; [|by split]].
    * simpl. by rewrite Hs.
    * unfold loop_ok. simpl. by rewrite Hl.
  - (* inside [getAvailability] *)
    unfold step. cbn [handle]. unfold turn. rewrite El.
    pose proof (getAvailability_valid_slot (promises w) _ Hc) as Hv.
    pose proof (getAvailability_count_ok (promises w) _ Hc) as Hc'.
    pose proof (getAvailability_length (promises w) (availability (pool w))) as Hl'.
    destruct (getAvailability_spec (promises w) (availability (pool w)))
      as [[_ Hg]|[(_ & i & _ & _ & _ & Hg)|(_ & _ & Hg)]];
      rewrite Hg in *; cbn [fst snd] in *.
    + cbn [fst snd pool created loop promises fmap list_fmap].
      exists cells. cbn [pool taskQueue availability workers loop].
      split; [done|]. split; [|split; [|split; [done|congruence]]].
      * rewrite resumed_in_hand. simpl. rewrite (right_id_L [] (++)).
        by rewrite Hs.
      * unfold loop_ok. simpl. done.
    + destruct Hv as (_ & Hz & _). rewrite Hn in Hz.
      rewrite decide_True by done.
      assert (cloneable (data task) = true) as ->.
      { rewrite Hs in Hcl. apply Forall_app in Hcl as [_ Hcl].
        simpl in Hcl. by apply Forall_cons in Hcl as [? _]. }
      cbn [fst snd pool created loop promises].
      exists cells. cbn [pool taskQueue availability workers loop].
      split; [done|]. split; [|split; [|split; [done|congruence]]].
      * rewrite Hs. unfold posted. simpl. rewrite fmap_app. simpl.
        by rewrite <- (assoc_L (++)).
      * unfold loop_ok. simpl. done.
    + destruct Hv as (_ & Hz & _). lia.
Qed.

Lemma step_workers (e : event D R) w :
  workers (pool (step randomUUID e w).1) = workers (pool w).
Proof.
  destruct (step_pool randomUUID e w) as (-> & _ & _).
  destruct e as [payload|workerId k result|workerId|workerId|workerId| |];
    cbn [handle fst pool].
  - by rewrite addTask_spec.
  - by rewrite on_message_spec.
  - done.
  - done.
  - unfold on_online. by destruct (AvailabilityQueue.enable _ _).
  - by destruct (loop w).
  - unfold turn. destruct (loop w) as [|[|x|]|task [|x]|]; try done.
    + by destruct (TaskQueue.pop_enter _ _) as [[[q c] [task|]]|].
    + by destruct (TaskQueue.pop_resume _) as [[[q c] [task|]]|].
    + destruct (AvailabilityQueue.getAvailability _ _) as [[a c] [z|]]; [|done].
      case_decide; [|done]. by destruct (cloneable _).
Qed.

Lemma step_dispatching (e : event D R) w sub post :
  (∀ i, event_worker e = Some i → (i < workers (pool w))%nat) →
  Forall (λ payload, cloneable payload = true) sub →
  dispatching w sub post →
  dispatching (step randomUUID e w).1 (sub ++ submitted [e])
    (post ++ posted (step randomUUID e w).2).
Proof.
  intros He Hcl Hd.
  destruct (event_worker e) as [i|] eqn:Ei.
  - destruct (handler_dispatching e w sub post i Ei (He i eq_refl) Hd) as [H ->].
    rewrite (right_id_L [] (++)).
    assert (submitted [e] = []) as ->; [by destruct e|].
    by rewrite (right_id_L [] (++)).
  - destruct e as [payload|workerId k result|workerId|workerId|workerId| |];
      try discriminate.
    + by apply addTask_dispatching.
    + destruct (start_dispatching w sub post Hd) as [H ->].
      unfold submitted. simpl. by rewrite !(right_id_L [] (++)).
    + unfold submitted. simpl. rewrite (right_id_L [] (++)).
      by apply turn_dispatching.
Qed.

Lemma submitted_cons (e : event D R) es :
  submitted (e :: es) = submitted [e] ++ submitted es.
Proof. unfold submitted. simpl. by rewrite (right_id_L [] (++)). Qed.

Lemma run_dispatching (es : list (event D R)) w sub post :
  Forall (λ e, ∀ i, event_worker e = Some i → (i < workers (pool w))%nat) es →
  Forall (λ payload, cloneable payload = true) (sub ++ submitted es) →
  dispatching w sub post →
  dispatching (run randomUUID es w).1 (sub ++ submitted es)
    (post ++ posted (run randomUUID es w).2).
Proof.
  revert w sub post. induction es as [|e es IH]; intros w sub post Hes Hcl Hd.
  - simpl. unfold submitted, posted. simpl. by rewrite !(right_id_L [] (++)).
  - apply Forall_cons in Hes as [He Hes].
    rewrite submitted_cons, (assoc_L (++)) in Hcl.
    pose proof (step_dispatching e w sub post He
                  (proj1 (proj1 (Forall_app _ _ _) (proj1 (proj1 (Forall_app _ _ _) Hcl))))
                  Hd) as H1.
    pose proof (step_workers e w) as Hw.
    rewrite submitted_cons. cbn [run].
    destruct (step randomUUID e w) as [w1 fx1]. cbn [fst snd] in *.
    rewrite <- Hw in Hes. specialize (IH w1 _ _ Hes Hcl H1).
    destruct (run randomUUID es w1) as [w2 fx2]. cbn [fst snd] in *.
    by rewrite posted_app, !(assoc_L (++)).
Qed.

Lemma run_workers (es : list (event D R)) w :
  workers (pool (run randomUUID es w).1) = workers (pool w).
Proof.
  revert w. induction es as [|e es IH]; intros w; [done|].
  simpl. pose proof (step_workers e w) as Hw.
  destruct (step randomUUID e w) as [w1 fx1]. specialize (IH w1).
  destruct (run randomUUID es w1) as [w2 fx2]. simpl in *. congruence.
Qed.

Lemma created_pool_dispatching poolSize :
  dispatching (D:=D) (created_pool poolSize) [] [].
Proof.
  exists []. split; [apply constructor_repr|]. split; [done|]. split; [done|].
  split; [apply constructor_count_ok|]. simpl. apply length_replicate.
Qed.

Lemma submitted_online (l : list nat) :
  submitted (D:=D) (R:=R) (Online <$> l) = [].
Proof. unfold submitted. induction l as [|i l IH]; [done|exact IH]. Qed.

Lemma getInstance_dispatching poolSize :
  dispatching (D:=D) (getInstance (R:=R) randomUUID poolSize) [] []
  ∧ workers (pool (getInstance (D:=D) (R:=R) randomUUID poolSize)) = poolSize.
Proof.
  unfold getInstance. split; [|by rewrite run_workers].
  assert (Forall (λ e : event D R,
                    ∀ i, event_worker e = Some i →
                         (i < workers (pool (created_pool (D:=D) poolSize)))%nat)
            (Online <$> seq 0 poolSize)) as Hes.
  { apply Forall_fmap, Forall_forall. intros i Hi%elem_of_seq j [= <-].
    simpl. lia. }
  assert (Forall (λ payload : D, cloneable payload = true)
            ([] ++ submitted (R:=R) (Online <$> seq 0 poolSize))) as Hcl.
  { rewrite submitted_online. constructor. }
  pose proof (run_dispatching _ _ [] [] Hes Hcl (created_pool_dispatching poolSize))
    as H.
  rewrite submitted_online in H. simpl in H.
  destruct H as (cells & Hr & Hs & Hrest).
  destruct (posted _) as [|x post]; [|done].
  exists cells. by split.
Qed.


End Dispatch.

Section PoolExamples.
Import WorkerPool.

(** Ids drawn as the decimal numerals "0", "1", ...: in a pool of four
    workers one task is submitted, payload 7, the dispatcher starts, takes
    it from the queue and posts it to worker 0; worker 0 then reports the
    result 99. *)
Lemma message_settles_pending_result_witness :
  let w := (run (R:=nat) pretty [AddTask 7%nat; Start; Turn; Turn]
              (getInstance (R:=nat) pretty 4)).1 in
  world_ok pretty w
  ∧ (run (R:=nat) pretty [AddTask 7%nat; Start; Turn; Turn]
       (getInstance (R:=nat) pretty 4)).2
    = [QueueLock (Lock.Release None);
       Post 0 {| id := pretty 0%nat; data := 7%nat |}]
  ∧ (on_message 0 (pretty 0%nat) 99%nat (pool w)).2
    = [Fulfil 0 99%nat; AvailabilityLock (Lock.Release None)]
  ∧ notifications (on_message 0 (pretty 0%nat) 99%nat (pool w)).1 !! pretty 0%nat
    = None.
Proof.
  intros w.
  assert (world_ok pretty w) as Hok.
  { apply run_ok, getInstance_ok. }
  split; [exact Hok|]. split; [vm_compute; reflexivity|].
  destruct (message_settles_pending_result (R:=nat) pretty w 0 (pretty 0%nat)
              99%nat) as (H1 & _ & _ & _ & _ & H2 & _).
  split; [|exact H2].
  destruct (H1 0%nat) as (_ & H & _); [vm_compute; reflexivity|exact H].
Defined.

(** The first task submitted to a new pool of four workers, the dispatcher
    not started; and a task submitted while all four workers are busy and
    the dispatcher, holding a fifth task, is suspended in
    [getAvailability]. *)
Lemma addTask_registers_then_enqueues_witness :
  let w := getInstance (D:=nat) (R:=nat) pretty 4 in
  let w' := (step (R:=nat) pretty (AddTask 7%nat) w).1 in
  let busy :=
    (run (R:=nat) pretty
       ([Start; Turn] ++ (AddTask <$> seq 0 5) ++ replicate 10 Turn) w).1 in
  let busy' := (step (R:=nat) pretty (AddTask 9%nat) busy).1 in
  (world_ok pretty w
   ∧ loop w = NotStarted
   ∧ notifications (pool w) !! pretty 0%nat = None
   ∧ notifications (pool w') = <[pretty 0%nat := 0%nat]> (notifications (pool w))
   ∧ TaskQueue.items (taskQueue (pool w')) = [{| id := pretty 0%nat; data := 7%nat |}])
  ∧ (world_ok pretty busy
     ∧ AvailabilityQueue.availability (availability (pool busy))
       = [false; false; false; false]
     ∧ loop busy = Claiming {| id := pretty 4%nat; data := 4%nat |} (Waiting 1)
     ∧ notifications (pool busy) !! pretty 5%nat = None
     ∧ TaskQueue.items (taskQueue (pool busy')) = [{| id := pretty 5%nat; data := 9%nat |}]
     ∧ availability (pool busy') = availability (pool busy)).
Proof.
  intros w w' busy busy'.
  assert (world_ok pretty w) as Hok by apply getInstance_ok.
  assert (world_ok pretty busy) as Hbusy by apply run_ok, Hok.
  split.
  - split; [exact Hok|]. split; [reflexivity|].
    destruct (addTask_registers_then_enqueues (R:=nat) pretty (inj pretty) w 7%nat Hok)
      as (H1 & H2 & H3 & _).
    split; [exact H1|]. split; [exact H2|exact H3].
  - split; [exact Hbusy|]. split; [vm_compute; reflexivity|].
    split; [vm_compute; reflexivity|].
    destruct (addTask_registers_then_enqueues (R:=nat) pretty (inj pretty) busy
                9%nat Hbusy) as (H1 & _ & H3 & _ & H5 & _).
    split; [exact H1|]. split; [|exact H5].
    etransitivity; [exact H3|]. vm_compute. reflexivity.
Defined.

(** The run of [app.ts] that the README prints: four workers, [start],
    eight tasks with payloads 0..7 submitted at once; the first four go to
    workers 0, 1, 2, 3; the workers finish in the order 0, 2, 3, 1 and take
    the tasks 4, 5, 6, 7 in that order. *)
Example app_dispatch_order :
  let T := Turn (D:=nat) (R:=string) in
  let done (i : nat) (r : string) := Message (D:=nat) i (pretty i) r in
  let es :=
    [Start; T] ++ (AddTask <$> seq 0 8) ++ replicate 9 T
    ++ [done 0 "Echo 0"; T; T; done 2 "Echo 2"; T; T;
        done 3 "Echo 3"; T; T; done 1 "Echo 1"; T; T] in
  posted (run pretty es (getInstance (R:=string) pretty 4)).2
  = [(0, 0); (1, 1); (2, 2); (3, 3); (0, 4); (2, 5); (3, 6); (1, 7)]%nat
  ∧ fulfilled (run pretty es (getInstance (R:=string) pretty 4)).2
    = [(0%nat, "Echo 0"); (2%nat, "Echo 2"); (3%nat, "Echo 3"); (1%nat, "Echo 1")].
Proof. split; vm_compute; reflexivity. Qed.

End PoolExamples.

Section StaleMessage.
Import WorkerPool.

(** C4, as stated, fails: a message whose id has no entry in the table is
    not dropped.  One worker, two tasks: task 10 is with worker 0, and the
    dispatcher, holding task 11, waits for a worker.  A message of worker 0
    with an id that was never drawn finds no entry, and line 160 enables
    the slot of worker 0 all the same: the state of the pool changes and
    the lock of the tracker is released, which resumes the dispatcher. *)
Lemma stale_message_not_dropped :
  ¬ (∀ (es : list (event nat nat)) (workerId : nat) (k : string) (result : nat),
       let w := (run pretty es (getInstance (R:=nat) pretty 1)).1 in
       notifications (pool w) !! k = None →
       step pretty (Message workerId k result) w = (w, [])).
Proof.
  intros H.
  specialize (H [Start; AddTask 10; AddTask 11; Turn; Turn; Turn; Turn]%nat
                0%nat "stale" 5%nat eq_refl).
  apply (f_equal snd) in H. vm_compute in H. discriminate H.
Qed.

(** What follows from it in the same run: with its next turn the dispatcher
    posts task 11 to worker 0, while no result for task 10 has arrived and
    its promise is still in the table. *)
Example stale_message_books_busy_worker :
  let es : list (event nat nat) :=
    [Start; AddTask 10; AddTask 11; Turn; Turn; Turn; Turn;
     Message 0 "stale" 5; Turn]%nat in
  let r := run pretty es (getInstance (R:=nat) pretty 1) in
  posted r.2 = [(0, 10); (0, 11)]%nat
  ∧ fulfilled r.2 = []
  ∧ notifications (pool r.1) !! pretty 0%nat = Some 0%nat.
Proof. repeat split; vm_compute; reflexivity. Qed.

End StaleMessage.

(** * Further properties of the code *)

(** ** The lock as its clients see it *)

Section LockClients.
Import Lock.

Lemma run_wakes os l :
  wakes (run os l).2 `sublist_of` option_list (resolve l) ++ waits os
  ∧ (length (wakes (run os l).2) ≤ signals os)%nat.
Proof.
  revert l. induction os as [|o os IH]; intros l.
  - simpl. split; [apply sublist_nil_l|done].
  - destruct o as [w|]; simpl.
    + destruct (IH {| resolve := Some w |}) as [IH1 IH2].
      destruct (run os _) as [l2 c2]. simpl in *. split; [|exact IH2].
      change (waits (Wait w :: os)) with ([w] ++ waits os).
      by apply sublist_inserts_l.
    + rewrite release_spec. destruct (IH {| resolve := None |}) as [IH1 IH2].
      destruct (run os _) as [l2 c2]. simpl in *. split.
      * change (waits (Signal :: os)) with (waits os).
        apply sublist_app; [|done]. by destruct (resolve l).
      * change (signals (Signal :: os)) with (S (signals os)).
        rewrite length_app. destruct (resolve l); simpl; lia.
Qed.

(** X1. On a new lock, whatever the client does: the waiters resumed are,
    in order, some of the waiters it registered; there are never more of
    them than [release] calls; and when every [acquire] brings a promise of
    its own, none is resumed twice. *)
Theorem lock_resumes_registered_once (os : list op) :
  wakes (run os constructor).2 `sublist_of` waits os
  ∧ (length (wakes (run os constructor).2) ≤ signals os)%nat
  ∧ (NoDup (waits os) → NoDup (wakes (run os constructor).2)).
Proof.
  destruct (run_wakes os constructor) as [H1 H2]. simpl in H1.
  split; [done|]. split; [done|]. intros Hnd. by eapply sublist_NoDup.
Qed.

End LockClients.

(** ** How the operations of the tracker compose *)

Section TrackerAlgebra.
Import AvailabilityQueue.
Local Open Scope Z_scope.

Lemma write_write id b b' l :
  (id < length l)%nat → write id b' (write id b l) = write id b' l.
Proof.
  intros H. rewrite (write_in_range id b l H).
  rewrite write_in_range by (by rewrite length_insert).
  rewrite write_in_range by done. apply list_insert_insert_eq.
Qed.

Lemma write_same id l : l !! id = Some false → write id false (write id true l) = l.
Proof.
  intros H. pose proof (lookup_lt_Some _ _ _ H) as Hlt.
  rewrite write_write by done. rewrite write_in_range by done.
  by apply list_insert_id.
Qed.

Lemma count_true_zero l i : count_true l = 0%nat → l !! i = Some true → False.
Proof.
  revert i. induction l as [|b l IH]; intros i; [done|].
  rewrite count_true_cons. destruct b; [lia|]. simpl.
  destruct i as [|i]; [done|]. simpl. apply IH.
Qed.

(** X2. [freeze] and [enable] are idempotent, and the second [enable] in a
    row makes no call on the lock.  On a slot of the array that is busy,
    [enable] followed by [freeze] restores the flags and the count; on a
    slot that is idle, so does [freeze] followed by [enable]. *)
Theorem freeze_enable_compose (id : nat) (a : t) :
  freeze id (freeze id a) = freeze id a
  ∧ enable id (enable id a).1 = ((enable id a).1, [])
  ∧ (availability a !! id = Some false →
     availability (freeze id (enable id a).1) = availability a
     ∧ availabilityCount (freeze id (enable id a).1) = availabilityCount a)
  ∧ (availability a !! id = Some true →
     availability (enable id (freeze id a)).1 = availability a
     ∧ availabilityCount (enable id (freeze id a)).1 = availabilityCount a).
Proof.
  split; [|split; [|split]].
  - unfold freeze at 1. by rewrite freeze_read_eq.
  - unfold enable at 1. by rewrite enable_marks_idle.
  - intros H. pose proof (lookup_lt_Some _ _ _ H) as Hlt.
    unfold enable. rewrite (proj2 (read_false _ _)) by auto. simpl.
    destruct (Lock.release (lock a)) as [l c]. simpl.
    unfold freeze. simpl. rewrite read_write_eq. simpl.
    split; [by apply write_same|lia].
  - intros H. pose proof (lookup_lt_Some _ _ _ H) as Hlt.
    unfold freeze. rewrite (proj2 (read_true _ _) H).
    unfold enable. simpl. rewrite read_write_eq. simpl.
    destruct (Lock.release (lock a)) as [l c]. simpl. split; [|lia].
    rewrite write_write by done. rewrite write_in_range by done.
    by apply list_insert_id.
Qed.

(** Slot 1 of a three-slot tracker, busy, and slot 0, idle. *)
Lemma freeze_enable_compose_witness :
  availability
    (freeze 1 (enable 1 {| availability := [true; false; false];
                           availabilityCount := 1;
                           lock := Lock.constructor |}).1)
  = [true; false; false]
  ∧ availability
      (enable 0 (freeze 0 {| availability := [true; false; false];
                             availabilityCount := 1;
                             lock := Lock.constructor |})).1
    = [true; false; false].
Proof.
  destruct (freeze_enable_compose 1 {| availability := [true; false; false];
                                       availabilityCount := 1;
                                       lock := Lock.constructor |})
    as (_ & _ & H1 & _).
  destruct (freeze_enable_compose 0 {| availability := [true; false; false];
                                       availabilityCount := 1;
                                       lock := Lock.constructor |})
    as (_ & _ & _ & H2).
  split; [exact (proj1 (H1 eq_refl))|exact (proj1 (H2 eq_refl))].
Defined.

(** X3. Past the end of the array, for an id that is an array index.
    [freeze] of a slot id that the array does not have changes nothing.
    [enable] of such an id grows the array up to that id, the new slots in
    between busy, and counts the new slot: the invariant of the count is
    kept, and the next [getAvailability] may return an id that was not a
    slot before. *)
Theorem slot_past_the_end (id : nat) (a : t) :
  array_index id →
  (length (availability a) ≤ id)%nat →
  freeze id a = a
  ∧ availability (enable id a).1
    = availability a ++ replicate (id - length (availability a)) false ++ [true]
  ∧ length (availability (enable id a).1) = S id
  ∧ availabilityCount (enable id a).1 = availabilityCount a + 1
  ∧ (count_ok a → count_ok (enable id a).1)
  ∧ (availabilityCount a = 0 → count_ok a →
     ∀ w, (getAvailability w (enable id a).1).2 = Returned (Z.of_nat id)).
Proof.
  intros _ Hge.
  assert (read id (availability a) = false) as Hr
    by (apply read_false; by right).
  assert (enable id a
          = ({| availability := write id true (availability a);
                availabilityCount := availabilityCount a + 1;
                lock := (Lock.release (lock a)).1 |}, (Lock.release (lock a)).2))
    as He.
  { unfold enable. rewrite Hr. simpl. by destruct (Lock.release (lock a)). }
  split; [|split; [|split; [|split; [|split]]]].
  - unfold freeze. by rewrite Hr.
  - rewrite He. simpl. unfold write. by rewrite decide_False by lia.
  - rewrite He. simpl. rewrite length_write. lia.
  - by rewrite He.
  - apply enable_count_ok.
  - intros H0 Hok w.
    pose proof (enable_count_ok id a Hok) as Hok'.
    pose proof (getAvailability_valid_slot w _ Hok') as Hv.
    destruct (getAvailability_spec w (enable id a).1)
      as [[Hle _]|[(_ & i & Hi & Ht & _ & Hg)|(_ & _ & Hg)]].
    + rewrite He in Hle. simpl in Hle. lia.
    + rewrite Hg. simpl. do 2 f_equal.
      destruct (decide (i = id)) as [|Hne]; [done|]. exfalso.
      apply read_true in Ht. rewrite He in Ht. simpl in Ht.
      rewrite read_write_ne in Ht by done.
      unfold count_ok, idle_slots in Hok. rewrite H0 in Hok.
      apply read_true in Ht. by apply (count_true_zero (availability a)) in Ht; [|lia].
    + rewrite Hg in Hv. simpl in Hv. lia.
Qed.

(** A two-slot tracker, both busy, and slot id 4. *)
Lemma slot_past_the_end_witness :
  array_index 4
  ∧ freeze 4 {| availability := [false; false]; availabilityCount := 0;
                lock := Lock.constructor |}
    = {| availability := [false; false]; availabilityCount := 0;
         lock := Lock.constructor |}
  ∧ availability (enable 4 {| availability := [false; false];
                              availabilityCount := 0;
                              lock := Lock.constructor |}).1
    = [false; false; false; false; true].
Proof.
  destruct (slot_past_the_end 4 {| availability := [false; false];
                                   availabilityCount := 0;
                                   lock := Lock.constructor |})
    as (H1 & H2 & _); [reflexivity|simpl; lia|].
  split; [reflexivity|]. split; [exact H1|exact H2].
Defined.

(** X4. No wake-up is missed, no slot passed over.  In a tracker with no
    idle slot, [getAvailability] suspends; the next [enable] of a busy slot
    resumes exactly that caller; resumed, [getAvailability] returns the
    slot just enabled and leaves the flags and the count as they were. *)
Theorem suspended_claim_takes_enabled_slot (w w' : Lock.waiter) (id : nat) (a : t) :
  count_ok a →
  availabilityCount a ≤ 0 →
  (id < length (availability a))%nat →
  let r := run [GetAvailability w; Enable id; GetAvailability w'] a in
  results r = [Z.of_nat id]
  ∧ r.1.2 = [Lock.Acquire w; Lock.Release (Some w)]
  ∧ availability (state r) = availability a
  ∧ availabilityCount (state r) = availabilityCount a.
Proof.
  intros Hok Hle Hid.
  assert (count_true (availability a) = 0%nat) as Hzero.
  { unfold count_ok, idle_slots in Hok. lia. }
  assert (availability a !! id = Some false) as Hfalse.
  { destruct (lookup_lt_is_Some_2 _ _ Hid) as [[|] Hb]; [|done].
    by destruct (count_true_zero _ _ Hzero Hb). }
  assert (getAvailability w a
          = ({| availability := availability a;
                availabilityCount := availabilityCount a;
                lock := {| Lock.resolve := Some w |} |},
             [Lock.Acquire w], Suspended)) as H1.
  { unfold getAvailability. by rewrite decide_True. }
  set (a1 := {| availability := availability a;
                availabilityCount := availabilityCount a;
                lock := {| Lock.resolve := Some w |} |}) in *.
  assert (enable id a1
          = ({| availability := write id true (availability a);
                availabilityCount := availabilityCount a + 1;
                lock := {| Lock.resolve := None |} |},
             [Lock.Release (Some w)])) as H2.
  { unfold enable. simpl. by rewrite (proj2 (read_false _ _)) by auto. }
  set (a2 := {| availability := write id true (availability a);
                availabilityCount := availabilityCount a + 1;
                lock := {| Lock.resolve := None |} |}) in *.
  assert (getAvailability w' a2 = (freeze id a2, [], Returned (Z.of_nat id))) as H3.
  { destruct (getAvailability_spec w' a2)
      as [[Hc _]|[(_ & i & _ & Ht & _ & Hg)|(_ & Hall & _)]].
    - unfold a2 in Hc. simpl in Hc. unfold count_ok, idle_slots in Hok. lia.
    - destruct (decide (i = id)) as [->|Hne]; [done|]. exfalso.
      apply read_true in Ht. unfold a2 in Ht. simpl in Ht.
      rewrite read_write_ne in Ht by done.
      apply read_true in Ht. by apply (count_true_zero _ _ Hzero Ht).
    - specialize (Hall id). unfold a2 in Hall. simpl in Hall.
      by rewrite read_write_eq in Hall. }
  cbv zeta. unfold run, step. rewrite H1, H2, H3. unfold results, state. simpl.
  split; [done|]. split; [done|].
  unfold freeze. simpl. rewrite read_write_eq. simpl.
  split; [by apply write_same|lia].
Qed.

(** Three busy slots; the caller is promise 7; slot 2 comes free. *)
Lemma suspended_claim_takes_enabled_slot_witness :
  results (run [GetAvailability 7%nat; Enable 2; GetAvailability 8%nat]
             {| availability := [false; false; false];
                availabilityCount := 0;
                lock := Lock.constructor |}) = [2].
Proof.
  refine (proj1 (suspended_claim_takes_enabled_slot 7%nat 8%nat 2
                   {| availability := [false; false; false];
                      availabilityCount := 0;
                      lock := Lock.constructor |} eq_refl _ _)).
  - simpl. lia.
  - simpl. lia.
Defined.

End TrackerAlgebra.

(** ** The queue as a list, and its consumer *)

Section QueueAsList.
Import TaskQueue.
Context {V : Type}.
Implicit Types (q : t V) (s : sys V).

(** X5. A well-formed queue behaves as the list of its items: [push]
    appends at the end; the dequeue of [pop] removes and returns the first
    item, leaving the lock alone, and on the empty queue it fails with the
    [TypeError] of [this.head!.value]. *)
Theorem queue_refines_list (q : t V) (x : V) :
  wf q →
  items (push x q).1 = items q ++ [x]
  ∧ (items q = [] → dequeue q = None)
  ∧ (∀ v rest, items q = v :: rest →
       ∃ q', dequeue q = Some (v, q') ∧ items q' = rest ∧ wf q'
             ∧ lock q' = lock q)
  ∧ (∀ v q', dequeue q = Some (v, q') → items q = v :: items q').
Proof.
  intros [cells Hr]. pose proof (items_repr _ _ Hr) as Hi.
  split; [|split; [|split]].
  - rewrite (items_repr _ _ (push_repr x _ _ Hr)), Hi. by rewrite fmap_app.
  - rewrite Hi. intros Hnil. destruct cells; [|done]. by apply dequeue_empty.
  - intros v rest. rewrite Hi. destruct cells as [|[a u] cells]; [done|].
    simpl. intros [= -> <-].
    destruct (dequeue_repr _ _ _ _ Hr) as (q' & Hd & Hr' & Hl).
    exists q'. split; [done|]. split; [by apply items_repr|].
    split; [by exists cells|done].
  - intros v q' Hd. rewrite Hi. destruct cells as [|[a u] cells].
    + by rewrite (dequeue_empty _ Hr) in Hd.
    + destruct (dequeue_repr _ _ _ _ Hr) as (q1 & Hd1 & Hr' & _).
      rewrite Hd in Hd1. injection Hd1 as -> ->.
      simpl. by rewrite (items_repr _ _ Hr').
Qed.

(** X6. The consumer is never stuck with an item in the queue.  In every
    state reached by pushes and consumer turns: a generator that awaits the
    lock has an empty queue before it, and the next push makes it
    resumable; with an item in the queue, the consumer's turn yields the
    oldest one; with none, its turn yields nothing and leaves the generator
    awaiting. *)
Theorem consumer_never_stuck (es : list (event V)) :
  ∃ s, run es init = Some s
       ∧ (∀ w, gen s = Awaiting w →
            items (queue s) = []
            ∧ ∀ x, ∃ s', step (Push x) s = Some s' ∧ gen s' = Resumable)
       ∧ (∀ v rest, items (queue s) = v :: rest →
            ∃ s', step Pull s = Some s'
                  ∧ yielded s' = yielded s ++ [v]
                  ∧ items (queue s') = rest)
       ∧ (items (queue s) = [] →
          ∃ s' w, step Pull s = Some s'
                  ∧ yielded s' = yielded s
                  ∧ gen s' = Awaiting w).
Proof.
  destruct (run_init es) as (s & cells & Hrun & Hc).
  pose proof Hc as (Hr & Hp & Hg).
  pose proof (items_repr _ _ Hr) as Hi.
  exists s. split; [done|]. split; [|split].
  - intros w Hw. unfold gen_ok in Hg. rewrite Hw in Hg. destruct Hg as [Hl ->].
    split; [by rewrite Hi|]. intros x.
    destruct (step_push s _ _ x Hc) as (s' & Hs & _).
    exists s'. split; [done|]. unfold step in Hs. rewrite push_spec in Hs.
    injection Hs as <-. simpl. rewrite Hw, Hl. simpl.
    by rewrite decide_True by apply list_elem_of_here.
  - intros v rest. rewrite Hi. destruct cells as [|[a u] cells]; [done|].
    simpl. intros [= -> <-].
    destruct (step_pull_item _ _ _ _ _ Hc) as (s' & Hs & (Hr' & _) & Hy).
    exists s'. split; [done|]. split; [done|]. by apply items_repr.
  - rewrite Hi. intros Hnil. destruct cells; [|done].
    unfold gen_ok in Hg. unfold step.
    pose proof (proj1 Hr) as Hh. simpl in Hh.
    destruct (gen s) as [|w|] eqn:Eg.
    + unfold pop_enter. rewrite Hh. simpl. by eexists _, _.
    + exists s, w. by rewrite Eg.
    + by destruct Hg.
Qed.

End QueueAsList.

(** The queue holding 5 then 6. *)
Lemma queue_refines_list_witness :
  TaskQueue.items
    (TaskQueue.push 7%nat
       (TaskQueue.push 6%nat (TaskQueue.push 5%nat TaskQueue.constructor).1).1).1
  = [5; 6; 7]%nat.
Proof.
  refine (proj1 (queue_refines_list
                   (TaskQueue.push 6%nat
                      (TaskQueue.push 5%nat TaskQueue.constructor).1).1 7%nat _)).
  exists [(0%nat, 5%nat); (1%nat, 6%nat)].
  split; [reflexivity|]. split.
  - simpl. repeat split; reflexivity.
  - apply (NoDup_seq 0 2).
Defined.

(** ** The pool when [getInstance] returns *)

Section AllOnline.
Import AvailabilityQueue.
Local Open Scope Z_scope.

Lemma count_true_replicate_true n : count_true (replicate n true) = n.
Proof.
  induction n as [|n IH]; [done|]. simpl. rewrite count_true_cons. by rewrite IH.
Qed.

Lemma enable_keeps_idle id i a :
  read i (availability a) = true →
  read i (availability (enable id a).1) = true.
Proof.
  intros Hi. destruct (decide (id = i)) as [->|Hne]; [apply enable_marks_idle|].
  unfold enable. destruct (read id (availability a)); simpl; [done|].
  destruct (Lock.release (lock a)). simpl. by rewrite read_write_ne.
Qed.

Lemma enable_lock id a :
  Lock.resolve (lock a) = None → Lock.resolve (lock (enable id a).1) = None.
Proof.
  intros Hl. unfold enable. destruct (read id (availability a)); simpl; [done|].
  by rewrite release_spec.
Qed.

(** Enabling the slots [l] of a tracker, in any order. *)
Lemma enable_all (l : list nat) a :
  let a' := state (run (Enable <$> l) a) in
  (∀ i, i ∈ l ∨ read i (availability a) = true → read i (availability a') = true)
  ∧ (Lock.resolve (lock a) = None → Lock.resolve (lock a') = None)
  ∧ (count_ok a → count_ok a')
  ∧ ((∀ i, i ∈ l → (i < length (availability a))%nat) →
     length (availability a') = length (availability a)).
Proof.
  revert a. induction l as [|id l IH]; intros a.
  - simpl. split; [|done]. intros i [Hi|Hi]; [by apply elem_of_nil in Hi|done].
  - rewrite fmap_cons. cbn [run step]. cbv zeta in IH.
    specialize (IH (enable id a).1).
    pose proof (enable_marks_idle id a) as Hid.
    pose proof (λ i, enable_keeps_idle id i a) as Hkeep.
    pose proof (enable_lock id a) as Hlock.
    pose proof (enable_count_ok id a) as Hcount.
    pose proof (enable_length id a) as Hlen.
    destruct (enable id a) as [a1 c1]. cbn [fst snd] in *.
    destruct (run (Enable <$> l) a1) as [[a2 c2] r2]. unfold state in *.
    cbn [fst snd] in *. destruct IH as (IH1 & IH2 & IH3 & IH4).
    split; [|split; [|split]].
    + intros i [[->|Hi]%elem_of_cons|Hi]; apply IH1; auto.
    + auto.
    + auto.
    + intros Hl. rewrite IH4.
      * apply Hlen, Hl, list_elem_of_here.
      * intros i Hi. rewrite Hlen by apply Hl, list_elem_of_here.
        by apply Hl, list_elem_of_further.
Qed.

Lemma enable_all_slots size (l : list nat) :
  l ≡ₚ seq 0 size →
  state (run (Enable <$> l) (constructor size))
  = {| availability := replicate size true;
       availabilityCount := Z.of_nat size;
       lock := Lock.constructor |}.
Proof.
  intros Hl.
  destruct (enable_all l (constructor size)) as (H1 & H2 & H3 & H4).
  specialize (H2 eq_refl). specialize (H3 (constructor_count_ok size)).
  assert (∀ i, i ∈ l → (i < length (availability (constructor size)))%nat) as Hin.
  { intros i Hi. rewrite Hl in Hi. apply elem_of_seq in Hi. simpl.
    rewrite length_replicate. lia. }
  specialize (H4 Hin). simpl in H4. rewrite length_replicate in H4.
  destruct (state _) as [av n [r]]. simpl in *. subst r.
  assert (av = replicate size true) as ->.
  { apply list_eq. intros i. destruct (decide (i < size)%nat) as [Hi|Hi].
    - rewrite lookup_replicate_2 by done. apply read_true, H1. left.
      rewrite Hl. apply elem_of_seq. lia.
    - rewrite !(proj2 (lookup_ge_None _ _)); [done|..].
      + rewrite length_replicate. lia.
      + lia. }
  unfold count_ok, idle_slots in H3. simpl in H3.
  rewrite count_true_replicate_true in H3. by subst n.
Qed.

End AllOnline.

Section Ready.
Import WorkerPool.
Context {D R : Type} `{!Cloneable D}.
Variable randomUUID : nat → string.

Lemma online_run (l : list nat) (w : world D) :
  loop w = NotStarted →
  (run (R:=R) randomUUID (Online <$> l) w).1
  = {| pool :=
         {| workers := workers (pool w);
            availability :=
              AvailabilityQueue.state
                (AvailabilityQueue.run (AvailabilityQueue.Enable <$> l)
                   (availability (pool w)));
            taskQueue := taskQueue (pool w);
            notifications := notifications (pool w) |};
       created := created w;
       loop := NotStarted;
       promises := promises w |}.
Proof.
  revert w. induction l as [|i l IH]; intros w Hl.
  - simpl. destruct w as [[] ? ? ?]. simpl in *. by subst.
  - rewrite !fmap_cons. cbn [run AvailabilityQueue.run AvailabilityQueue.step].
    unfold step at 1. cbn [handle]. unfold on_online.
    destruct (AvailabilityQueue.enable i (availability (pool w))) as [a c].
    cbn [fst snd pool created loop promises]. rewrite Hl.
    cbn [resumed].
    specialize (IH {| pool := {| workers := workers (pool w); availability := a;
                                 taskQueue := taskQueue (pool w);
                                 notifications := notifications (pool w) |};
                      created := created w; loop := NotStarted;
                      promises := promises w |} eq_refl).
    destruct (run randomUUID (Online <$> l) _) as [w2 fx2].
    cbn [fst snd] in *. rewrite IH. cbn [pool workers availability taskQueue
      notifications created promises].
    by destruct (AvailabilityQueue.run (AvailabilityQueue.Enable <$> l) a)
      as [[??]?].
Qed.

(** X7. The pool that [getInstance] returns.  Whatever the order in which
    the workers come online, once each of them has, every slot is idle, the
    count is the number of workers, no waiter is registered, the queue and
    the table are empty and the dispatcher is not started. *)
Theorem getInstance_all_idle (poolSize : nat) (l : list nat) :
  l ≡ₚ seq 0 poolSize →
  (run (R:=R) randomUUID (Online <$> l) (created_pool (D:=D) poolSize)).1
  = {| pool :=
         {| workers := poolSize;
            availability :=
              {| AvailabilityQueue.availability := replicate poolSize true;
                 AvailabilityQueue.availabilityCount := Z.of_nat poolSize;
                 AvailabilityQueue.lock := Lock.constructor |};
            taskQueue := TaskQueue.constructor;
            notifications := ∅ |};
       created := 0;
       loop := NotStarted;
       promises := 0 |}
  ∧ getInstance (R:=R) randomUUID poolSize
    = (run (R:=R) randomUUID (Online <$> l) (created_pool (D:=D) poolSize)).1.
Proof.
  intros Hl.
  assert (∀ l', l' ≡ₚ seq 0 poolSize →
            (run (R:=R) randomUUID (Online <$> l') (created_pool (D:=D) poolSize)).1
            = {| pool :=
                   {| workers := poolSize;
                      availability :=
                        {| AvailabilityQueue.availability := replicate poolSize true;
                           AvailabilityQueue.availabilityCount := Z.of_nat poolSize;
                           AvailabilityQueue.lock := Lock.constructor |};
                      taskQueue := TaskQueue.constructor;
                      notifications := ∅ |};
                 created := 0;
                 loop := NotStarted;
                 promises := 0 |}) as H.
  { intros l' Hl'. rewrite online_run by done. simpl.
    by rewrite (enable_all_slots poolSize l' Hl'). }
  split; [by apply H|]. unfold getInstance. by rewrite !H.
Qed.

End Ready.

(** Three workers that come online in the order 2, 0, 1. *)
Lemma getInstance_all_idle_witness :
  AvailabilityQueue.availability
    (WorkerPool.availability
       (WorkerPool.pool
          (WorkerPool.run (D:=nat) (R:=nat) pretty
             (WorkerPool.Online <$> [2; 0; 1]%nat) (WorkerPool.created_pool 3)).1))
  = [true; true; true].
Proof.
  assert ([2; 0; 1]%nat ≡ₚ seq 0 3) as Hp.
  { simpl. etransitivity; [apply Permutation_swap|].
    apply perm_skip, Permutation_swap. }
  destruct (getInstance_all_idle (D:=nat) (R:=nat) pretty 3 [2; 0; 1]%nat Hp)
    as [H _].
  rewrite H. reflexivity.
Defined.

(** ** One task per worker *)

Section Workers.
Import WorkerPool.
Context {D R : Type} `{!Cloneable D}.
Variable randomUUID : nat → string.
Implicit Types (w : world D) (es : list (event D R)).

(** A busy slot stays busy, and its worker gets no task, as long as the
    worker neither reports a result nor comes online. *)
Lemma busy_worker_gets_no_task s es w :
  (∀ k result, Message s k result ∉ es) →
  Online s ∉ es →
  slot_flag s w = false →
  slot_flag s (run randomUUID es w).1 = false
  ∧ ∀ payload, (s, payload) ∉ posted (run randomUUID es w).2.
Proof.
  unfold slot_flag. revert w. induction es as [|e es IH]; intros w Hmsg Honl Hs.
  - split; [done|]. intros ?. apply not_elem_of_nil.
  - destruct (handle_keeps_busy randomUUID s e w) as [H1 H2].
    { intros k result ->. apply (Hmsg k result), list_elem_of_here. }
    { intros ->. apply Honl, list_elem_of_here. }
    { done. }
    destruct (step_pool randomUUID e w) as (Hp & _ & Hfx).
    rewrite <- Hp in H1. rewrite <- Hfx in H2.
    cbn [run]. destruct (step randomUUID e w) as [w1 fx1]. cbn [fst snd] in *.
    destruct (IH w1) as [IH1 IH2]; [| |done|].
    { intros k result H. apply (Hmsg k result). by apply list_elem_of_further. }
    { intros H. apply Honl. by apply list_elem_of_further. }
    destruct (run randomUUID es w1) as [w2 fx2]. cbn [fst snd] in *.
    split; [done|]. intros payload. rewrite posted_app, elem_of_app.
    intros [H|H]; [by apply (H2 payload)|by apply (IH2 payload)].
Qed.

(** Only the dispatcher posts, and only to a worker of the pool whose slot
    it found idle; the slot is busy when the step ends. *)
Lemma post_claims_slot (e : event D R) w s payload :
  (s, payload) ∈ posted (step randomUUID e w).2 →
  e = Turn
  ∧ (s < workers (pool w))%nat
  ∧ slot_flag s w = true
  ∧ slot_flag s (step randomUUID e w).1 = false.
Proof.
  unfold slot_flag. destruct (step_pool randomUUID e w) as (-> & _ & ->).
  destruct e as [p|workerId k result|workerId|workerId|workerId| |];
    cbn [handle fst snd pool].
  - rewrite addTask_spec. cbn [snd]. rewrite posted_queue_lock.
    intros H. by apply elem_of_nil in H.
  - rewrite on_message_spec. cbn [snd].
    rewrite posted_app, posted_availability_lock, (right_id_L [] (++)).
    intros H. destruct (notifications (pool w) !! k); by apply elem_of_nil in H.
  - intros H. by apply elem_of_nil in H.
  - intros H. by apply elem_of_nil in H.
  - unfold on_online. destruct (AvailabilityQueue.enable _ _) as [a c].
    cbn [snd]. rewrite posted_availability_lock.
    intros H. by apply elem_of_nil in H.
  - destruct (loop w); intros H; by apply elem_of_nil in H.
  - unfold turn. destruct (loop w) as [|[|x|]|task [|x]|];
      try (intros H; by apply elem_of_nil in H).
    + destruct (TaskQueue.pop_enter _ _) as [[[q c] [task|]]|]; cbn [snd];
        rewrite ?posted_queue_lock; intros H; by apply elem_of_nil in H.
    + destruct (TaskQueue.pop_resume _) as [[[q c] [task|]]|]; cbn [snd];
        rewrite ?posted_queue_lock; intros H; by apply elem_of_nil in H.
    + destruct (getAvailability_spec (promises w) (availability (pool w)))
        as [[_ Hg]|[(_ & i & _ & Ht & _ & Hg)|(_ & _ & Hg)]]; rewrite Hg.
      * cbn [snd fmap list_fmap]. intros H. by apply elem_of_nil in H.
      * case_decide as Hz; [destruct (cloneable _)|];
          cbn [fst snd pool availability].
        -- unfold posted. simpl. rewrite list_elem_of_singleton.
           rewrite Nat2Z.id. intros [= -> _].
           split; [done|]. split; [lia|]. split; [by apply read_true|].
           apply freeze_read_eq.
        -- intros H. by apply elem_of_nil in H.
        -- intros H. by apply elem_of_nil in H.
      * rewrite decide_False by lia. intros H. by apply elem_of_nil in H.
Qed.

(** X8. One task per worker.  A task is posted only to a worker of the
    pool whose slot is idle, and from then on no other task is posted to
    that worker until it reports a result or comes online again. *)
Theorem one_task_per_worker (e : event D R) w s payload es :
  (s, payload) ∈ posted (step randomUUID e w).2 →
  (∀ k result, Message s k result ∉ es) →
  Online s ∉ es →
  (s < workers (pool w))%nat
  ∧ slot_flag s w = true
  ∧ ∀ payload', (s, payload') ∉ posted (run randomUUID es (step randomUUID e w).1).2.
Proof.
  intros Hpost Hmsg Honl.
  destruct (post_claims_slot e w s payload Hpost) as (_ & Hs & Ht & Hf).
  split; [done|]. split; [done|].
  by apply busy_worker_gets_no_task.
Qed.

(** Posts go to workers of the pool. *)
Lemma posted_in_range es w s payload :
  (s, payload) ∈ posted (run randomUUID es w).2 → (s < workers (pool w))%nat.
Proof.
  revert w. induction es as [|e es IH]; intros w.
  - intros H. by apply elem_of_nil in H.
  - cbn [run]. pose proof (post_claims_slot e w s payload) as H1.
    pose proof (step_workers randomUUID e w) as Hw.
    destruct (step randomUUID e w) as [w1 fx1]. specialize (IH w1).
    destruct (run randomUUID es w1) as [w2 fx2]. cbn [fst snd] in *.
    rewrite posted_app, elem_of_app. intros [H|H].
    + by destruct (H1 H) as (_ & ? & _).
    + rewrite <- Hw. by apply IH.
Qed.

(** X9. After every worker has exited (as [stop] makes them), and as long
    as none reports or comes online again, the dispatcher posts nothing:
    tasks submitted from then on are queued and stay there. *)
Theorem no_dispatch_after_exit (l : list nat) w es :
  (∀ s, (s < workers (pool w))%nat → s ∈ l) →
  (∀ s k result, Message s k result ∉ es) →
  (∀ s, Online s ∉ es) →
  posted (run randomUUID (Exit (R:=R) <$> l) w).2 = []
  ∧ posted (run randomUUID es (run randomUUID (Exit (R:=R) <$> l) w).1).2 = [].
Proof.
  intros Hall Hmsg Honl.
  assert (∀ l' w', posted (run randomUUID (Exit (R:=R) <$> l') w').2 = []
                   ∧ ∀ s, s ∈ l' ∨ slot_flag s w' = false →
                          slot_flag s (run randomUUID (Exit (R:=R) <$> l') w').1 = false)
    as Hexit.
  { clear. induction l' as [|i l' IH]; intros w'.
    - split; [done|]. intros s [H|H]; [by apply elem_of_nil in H|done].
    - rewrite fmap_cons. cbn [run].
      assert (posted (step randomUUID (Exit (R:=R) i) w').2 = []) as Hp by done.
      assert (∀ s, s = i ∨ slot_flag s w' = false →
                   slot_flag s (step randomUUID (Exit (R:=R) i) w').1 = false) as Hf.
      { intros s [->|Hs]; unfold slot_flag, step; simpl.
        - apply freeze_read_eq.
        - by apply freeze_read_ne. }
      destruct (step randomUUID (Exit i) w') as [w1 fx1]. cbn [fst snd] in *.
      destruct (IH w1) as [IH1 IH2].
      destruct (run randomUUID (Exit <$> l') w1) as [w2 fx2]. cbn [fst snd] in *.
      split; [by rewrite posted_app, Hp, IH1|].
      intros s [[->|Hs]%elem_of_cons|Hs]; apply IH2; auto. }
  destruct (Hexit l w) as [H1 H2]. split; [done|].
  destruct (posted (run randomUUID es _).2) as [|[s payload] post] eqn:E; [done|].
  exfalso.
  assert ((s, payload) ∈ posted (run randomUUID es
                                   (run randomUUID (Exit (R:=R) <$> l) w).1).2) as Hin.
  { rewrite E. apply list_elem_of_here. }
  pose proof (posted_in_range _ _ _ _ Hin) as Hs.
  rewrite run_workers in Hs.
  destruct (busy_worker_gets_no_task s es
              (run randomUUID (Exit (R:=R) <$> l) w).1) as [_ Hno];
    [apply Hmsg|apply Honl|apply H2; left; by apply Hall|].
  by apply (Hno payload).
Qed.

End Workers.

Section WorkersExamples.
Import WorkerPool.

(** Two workers, three tasks: the first turn after the queue is filled
    posts task 0 to worker 0, and worker 0 gets nothing more while the
    dispatcher hands task 1 to worker 1 and waits with task 2. *)
Lemma one_task_per_worker_witness :
  let w := (run (R:=nat) pretty ([Start] ++ (AddTask <$> [10; 11; 12]%nat) ++ [Turn])
              (getInstance (D:=nat) (R:=nat) pretty 2)).1 in
  posted (step (R:=nat) pretty Turn w).2 = [(0, 10)]%nat
  ∧ posted (run (R:=nat) pretty (replicate 6 Turn) (step (R:=nat) pretty Turn w).1).2
    = [(1, 11)]%nat
  ∧ ∀ payload', (0%nat, payload') ∉
      posted (run (R:=nat) pretty (replicate 6 Turn) (step (R:=nat) pretty Turn w).1).2.
Proof.
  intros w. split; [vm_compute; reflexivity|]. split; [vm_compute; reflexivity|].
  refine (proj2 (proj2 (one_task_per_worker pretty Turn w 0%nat 10%nat
                          (replicate 6 Turn) _ _ _))).
  - vm_compute. apply list_elem_of_here.
  - intros k result H. repeat (apply elem_of_cons in H as [H|H]; [discriminate|]).
    by apply elem_of_nil in H.
  - intros H. repeat (apply elem_of_cons in H as [H|H]; [discriminate|]).
    by apply elem_of_nil in H.
Defined.

(** Two workers exit, in the order 1, 0; two tasks are then submitted to a
    started pool: nothing is posted. *)
Lemma no_dispatch_after_exit_witness :
  posted (run (R:=nat) pretty ([Start] ++ (AddTask <$> [10; 11]%nat) ++ replicate 5 Turn)
            (run (R:=nat) pretty (Exit <$> [1; 0]%nat)
               (getInstance (D:=nat) (R:=nat) pretty 2)).1).2 = [].
Proof.
  refine (proj2 (no_dispatch_after_exit pretty [1; 0]%nat
                   (getInstance (D:=nat) (R:=nat) pretty 2)
                   ([Start] ++ (AddTask <$> [10; 11]%nat) ++ replicate 5 Turn) _ _ _)).
  - intros s Hs. change (workers _) with 2%nat in Hs.
    destruct s as [|[|s]]; [|apply list_elem_of_here|lia].
    apply list_elem_of_further, list_elem_of_here.
  - intros s k result H. repeat (apply elem_of_cons in H as [H|H]; [discriminate|]).
    by apply elem_of_nil in H.
  - intros s H. repeat (apply elem_of_cons in H as [H|H]; [discriminate|]).
    by apply elem_of_nil in H.
Defined.

End WorkersExamples.

Section DispatchExamples.
Import WorkerPool.


(** Two workers; worker 0 exits before the pool is started: the task goes
    to worker 1. *)
Lemma exited_worker_gets_no_task_witness :
  let es : list (event nat nat) := [Start; AddTask 10; Turn; Turn; Turn]%nat in
  let r := run pretty es (step (R:=nat) pretty (Exit 0)
                            (getInstance (R:=nat) pretty 2)).1 in
  posted r.2 = [(1, 10)]%nat
  ∧ ∀ payload, (0%nat, payload) ∉ posted r.2.
Proof.
  intros es r. split; [vm_compute; reflexivity|].
  refine (exited_worker_gets_no_task pretty 0 es (getInstance (R:=nat) pretty 2) _ _).
  - intros k result H. repeat (apply elem_of_cons in H as [H|H]; [discriminate|]).
    by apply elem_of_nil in H.
  - intros H. repeat (apply elem_of_cons in H as [H|H]; [discriminate|]).
    by apply elem_of_nil in H.
Defined.

End DispatchExamples.

(** ** Results *)

Section Results.
Import WorkerPool.
Context {D R : Type} `{!Cloneable D}.
Variable randomUUID : nat → string.
Implicit Types (w : world D) (es : list (event D R)) (F : list nat).

Lemma fulfilled_app (fx1 fx2 : list (effect D R)) :
  fulfilled (fx1 ++ fx2) = fulfilled fx1 ++ fulfilled fx2.
Proof. unfold fulfilled. apply bind_app. Qed.

(** Only the ["message"] handler fulfils a promise: the one registered
    under the id of the message, with the result of the message. *)
Lemma step_fulfilled (e : event D R) w :
  fulfilled (step randomUUID e w).2
  = match e with
    | Message _ k result =>
        match notifications (pool w) !! k with
        | Some promise => [(promise, result)]
        | None => []
        end
    | _ => []
    end.
Proof.
  destruct (step_pool randomUUID e w) as (_ & _ & ->).
  destruct e as [p|workerId k result|workerId|workerId|workerId| |];
    cbn [handle fst snd].
  - rewrite addTask_spec. apply fulfilled_locks.
  - rewrite on_message_spec. cbn [snd]. rewrite fulfilled_app.
    rewrite (proj1 (fulfilled_locks _)), (right_id_L [] (++)).
    by destruct (notifications (pool w) !! k).
  - done.
  - done.
  - unfold on_online. destruct (AvailabilityQueue.enable _ _) as [a c].
    apply fulfilled_locks.
  - by destruct (loop w).
  - unfold turn. destruct (loop w) as [|[|x|]|task [|x]|]; try done.
    + destruct (TaskQueue.pop_enter _ _) as [[[q c] [task|]]|]; cbn [snd];
        try done; apply fulfilled_locks.
    + destruct (TaskQueue.pop_resume _) as [[[q c] [task|]]|]; cbn [snd];
        try done; apply fulfilled_locks.
    + destruct (AvailabilityQueue.getAvailability _ _) as [[a c] [z|]].
      * case_decide; [by destruct (cloneable _)|done].
      * apply fulfilled_locks.
Qed.

Lemma step_table (e : event D R) w k :
  notifications (pool (step randomUUID e w).1) !! k
  = match e with
    | AddTask _ =>
        if decide (randomUUID (created w) = k) then Some (created w)
        else notifications (pool w) !! k
    | Message _ k' _ =>
        if decide (k' = k) then None else notifications (pool w) !! k
    | _ => notifications (pool w) !! k
    end
  ∧ created (step randomUUID e w).1
    = match e with AddTask _ => S (created w) | _ => created w end.
Proof.
  destruct (step_pool randomUUID e w) as (-> & -> & _).
  destruct e as [p|workerId k' result|workerId|workerId|workerId| |];
    cbn [handle fst snd pool created].
  - rewrite addTask_spec. cbn [fst notifications]. split; [|done].
    apply lookup_insert.
  - rewrite on_message_spec. cbn [fst notifications]. split; [|done].
    apply lookup_delete.
  - done.
  - done.
  - unfold on_online. by destruct (AvailabilityQueue.enable _ _) as [a c].
  - by destruct (loop w).
  - unfold turn. destruct (loop w) as [|[|x|]|task [|x]|]; try done.
    + by destruct (TaskQueue.pop_enter _ _) as [[[q c] [task|]]|].
    + by destruct (TaskQueue.pop_resume _) as [[[q c] [task|]]|].
    + destruct (AvailabilityQueue.getAvailability _ _) as [[a c] [z|]]; [|done].
      case_decide; [by destruct (cloneable _)|done].
Qed.

Lemma step_settled (e : event D R) w F :
  table_ok randomUUID w →
  settled w F →
  settled (step randomUUID e w).1 (F ++ (fulfilled (step randomUUID e w).2).*1)
  ∧ Forall (λ pr, ∃ i, e = Message i (randomUUID pr.1) pr.2)
      (fulfilled (step randomUUID e w).2).
Proof.
  intros Ht [Hnd HF]. rewrite step_fulfilled.
  assert (∀ k, notifications (pool (step randomUUID e w).1) !! k = _)
    as Htab by (intros k; apply (step_table e w k)).
  destruct (step_table e w (randomUUID 0)) as [_ Hcr].
  unfold settled. rewrite Hcr. clear Hcr.
  destruct e as [p|workerId k' result|workerId|workerId|workerId| |];
    simpl; rewrite ?(right_id_L [] (++));
    try (split; [by split|by constructor]);
    try (split; [|by constructor]; split; [done|];
         intros promise Hp; destruct (HF _ Hp) as [Hlt Hno];
         split; [done|]; intros k; rewrite Htab; by apply Hno).
  - split; [|by constructor]. split; [done|].
    intros promise Hp. destruct (HF _ Hp) as [Hlt Hno]. split; [lia|].
    intros k. rewrite Htab. case_decide; [|apply Hno].
    intros [= Heq]. lia.
  - destruct (notifications (pool w) !! k') as [promise|] eqn:Ek; simpl.
    + destruct (Ht _ _ Ek) as [Hlt ->]. split.
      * split.
        -- apply NoDup_app. split; [done|]. split; [|apply NoDup_singleton].
           intros q Hq [->|H]%elem_of_cons; [|by apply elem_of_nil in H].
           destruct (HF _ Hq) as [_ Hno]. by apply (Hno (randomUUID promise)).
        -- intros q [Hq|[->|Hq]%elem_of_cons]%elem_of_app.
           ++ destruct (HF _ Hq) as [? Hno]. split; [done|].
              intros k. rewrite Htab. case_decide; [done|apply Hno].
           ++ split; [done|]. intros k. rewrite Htab. case_decide; [done|].
              intros Hk. destruct (Ht _ _ Hk) as [_ ->]. done.
           ++ by apply elem_of_nil in Hq.
      * constructor; [|constructor]. by exists workerId.
    + rewrite (right_id_L [] (++)). split; [|constructor]. split; [done|].
      intros q Hq. destruct (HF _ Hq) as [? Hno]. split; [done|].
      intros k. rewrite Htab. case_decide; [done|apply Hno].
Qed.

Lemma run_settled es w F :
  world_ok randomUUID w →
  settled w F →
  settled (run randomUUID es w).1 (F ++ (fulfilled (run randomUUID es w).2).*1)
  ∧ Forall (λ pr, ∃ i, Message i (randomUUID pr.1) pr.2 ∈ es)
      (fulfilled (run randomUUID es w).2).
Proof.
  revert w F. induction es as [|e es IH]; intros w F Hok Hs.
  - simpl. rewrite (right_id_L [] (++)). split; [done|constructor].
  - destruct (step_settled e w F (proj2 Hok) Hs) as [H1 H2].
    pose proof (step_ok randomUUID e w Hok) as Hok1.
    cbn [run]. destruct (step randomUUID e w) as [w1 fx1]. cbn [fst snd] in *.
    destruct (IH w1 _ Hok1 H1) as [IH1 IH2].
    destruct (run randomUUID es w1) as [w2 fx2]. cbn [fst snd] in *.
    rewrite fulfilled_app, fmap_app, (assoc_L (++)). split; [done|].
    apply Forall_app. split.
    + eapply Forall_impl; [exact H2|]. intros pr [i ->].
      exists i. apply list_elem_of_here.
    + eapply Forall_impl; [exact IH2|]. intros pr [i Hi].
      exists i. by apply list_elem_of_further.
Qed.

(** X10. Each result is delivered once, to the right submitter.  In every
    run from a state of the pool that satisfies the invariant: no promise
    is fulfilled twice; a promise is fulfilled only by a message that
    carries the id drawn for it by [addTask], and with the result of that
    message; and a promise that was fulfilled has no entry left in the
    table. *)
Theorem results_delivered_once w es :
  world_ok randomUUID w →
  let r := run randomUUID es w in
  NoDup (fulfilled r.2).*1
  ∧ Forall (λ pr, (pr.1 < created r.1)%nat
                  ∧ (∃ i, Message i (randomUUID pr.1) pr.2 ∈ es)
                  ∧ ∀ k, notifications (pool r.1) !! k ≠ Some pr.1)
      (fulfilled r.2).
Proof.
  intros Hok r.
  destruct (run_settled es w [] Hok) as [[Hnd HF] Hmsg].
  { split; [constructor|]. intros p Hp. by apply elem_of_nil in Hp. }
  fold r in Hnd, HF, Hmsg. simpl in Hnd, HF. split; [done|].
  apply Forall_forall. intros pr Hpr.
  destruct (HF pr.1) as [Hlt Hno]; [by apply list_elem_of_fmap_2|].
  split; [done|]. split; [|done].
  by apply (proj1 (Forall_forall _ _) Hmsg).
Qed.

End Results.

Section ResultsExamples.
Import WorkerPool.

(** One worker, one task: the worker reports the result twice; the second
    message finds no entry and fulfils nothing. *)
Lemma results_delivered_once_witness :
  let es : list (event nat nat) :=
    [Start; AddTask 10; Turn; Turn;
     Message 0 (pretty 0) 5; Message 0 (pretty 0) 5]%nat in
  let r := run pretty es (getInstance (R:=nat) pretty 1) in
  fulfilled r.2 = [(0, 5)]%nat
  ∧ NoDup (fulfilled r.2).*1.
Proof.
  intros es r. split; [vm_compute; reflexivity|].
  refine (proj1 (results_delivered_once pretty (getInstance (R:=nat) pretty 1) es _)).
  apply getInstance_ok.
Defined.

End ResultsExamples.

(** ** No wake-up is lost *)

Section WakeUps.
Import WorkerPool.
Context {D R : Type} `{!Cloneable D}.
Variable randomUUID : nat → string.
Implicit Types (w : world D) (es : list (event D R)).

Lemma availability_calls_app (fx1 fx2 : list (effect D R)) :
  availability_calls (fx1 ++ fx2) = availability_calls fx1 ++ availability_calls fx2.
Proof. unfold availability_calls. apply bind_app. Qed.

Lemma availability_calls_lock (cs : list Lock.call) :
  availability_calls (D:=D) (R:=R) (AvailabilityLock <$> cs) = cs.
Proof.
  unfold availability_calls. induction cs as [|c cs IH]; [done|].
  simpl. f_equal. exact IH.
Qed.

Lemma availability_calls_queue (cs : list Lock.call) :
  availability_calls (D:=D) (R:=R) (QueueLock <$> cs) = [].
Proof. unfold availability_calls. induction cs as [|c cs IH]; [done|exact IH]. Qed.

(** What [enable] does to a dispatcher suspended in [getAvailability]. *)
Lemma enable_wakes i a x :
  Lock.resolve (AvailabilityQueue.lock a) = Some x →
  (AvailabilityQueue.enable i a = (a, [])
   ∧ AvailabilityQueue.read i (AvailabilityQueue.availability a) = true)
  ∨ (Lock.wakes (AvailabilityQueue.enable i a).2 = [x]
     ∧ AvailabilityQueue.read i (AvailabilityQueue.availability a) = false).
Proof.
  intros Hx. unfold AvailabilityQueue.enable.
  destruct (AvailabilityQueue.read i _); simpl; [by left|right].
  rewrite release_spec, Hx. done.
Qed.

Lemma handler_waiting (e : event D R) w i :
  event_worker e = Some i →
  waiting_ok w → waiting_ok (step randomUUID e w).1.
Proof.
  intros He Hw. unfold waiting_ok in *. unfold step.
  destruct e as [payload|workerId k result|workerId|workerId|workerId| |];
    simplify_eq/=.
  - rewrite on_message_spec. cbn [fst snd pool loop availability].
    destruct (loop w) as [|[|x|]|task [|x]|]; simpl; try done.
    + by case_decide.
    + destruct Hw as [Hc Hx].
      rewrite availability_calls_app, availability_calls_lock.
      assert (availability_calls
                (match notifications (pool w) !! k with
                 | Some promise => [Fulfil (D:=D) promise result]
                 | None => []
                 end) = []) as -> by (by destruct (notifications (pool w) !! k)).
      simpl. destruct (enable_wakes i _ x Hx) as [[-> _]|[-> _]]; simpl.
      * done.
      * by rewrite decide_True by apply list_elem_of_here.
  - destruct (loop w) as [|[|x|]|task [|x]|]; simpl; try done.
    rewrite ?decide_False by apply not_elem_of_nil. simpl.
    destruct Hw as [Hc Hx]. unfold AvailabilityQueue.freeze.
    destruct (AvailabilityQueue.read i _); simpl; [split; [lia|done]|done].
  - destruct (loop w) as [|[|x|]|task [|x]|]; simpl; done.
  - unfold on_online.
    destruct (loop w) as [|[|x|]|task [|x]|]; simpl; try done.
    + by case_decide.
    + destruct Hw as [Hc Hx].
      destruct (enable_wakes i _ x Hx) as [[He _]|[He _]].
      * rewrite He. simpl.
        rewrite ?decide_False by apply not_elem_of_nil. done.
      * destruct (AvailabilityQueue.enable i _) as [a c]. simpl in *.
        rewrite availability_calls_lock, He.
        by rewrite decide_True by apply list_elem_of_here.
Qed.

Lemma step_waiting (e : event D R) w :
  waiting_ok w → waiting_ok (step randomUUID e w).1.
Proof.
  intros Hw.
  destruct (event_worker e) as [i|] eqn:He; [by apply (handler_waiting e w i)|].
  unfold waiting_ok in *. unfold step.
  destruct e as [payload|workerId k result|workerId|workerId|workerId| |];
    simplify_eq/=.
  - rewrite addTask_spec. cbn [fst snd pool loop availability].
    destruct (loop w) as [|[|x|]|task [|x]|]; simpl; try done.
    + by case_decide.
    + rewrite availability_calls_queue. simpl.
      by rewrite ?decide_False by apply not_elem_of_nil.
  - destruct (loop w) as [|[|x|]|task [|x]|] eqn:El; simpl; rewrite ?El;
      simpl; try done.
  - unfold turn.
    destruct (loop w) as [|[|x|]|task [|x]|] eqn:El; simpl; rewrite ?El;
      simpl; try done.
    + destruct (TaskQueue.pop_enter _ _) as [[[q c] [t|]]|]; simpl; try done.
      by case_decide.
    + destruct (TaskQueue.pop_resume _) as [[[q c] [t|]]|]; simpl; try done.
      by case_decide.
    + unfold AvailabilityQueue.getAvailability. case_decide as Hc.
      * simpl. by rewrite ?decide_False by apply not_elem_of_nil.
      * destruct (AvailabilityQueue.scan _ _ _) as [a z]. simpl.
        case_decide; [by destruct (cloneable _)|done].
Qed.

Lemma run_waiting es w :
  waiting_ok w → waiting_ok (run randomUUID es w).1.
Proof.
  revert w. induction es as [|e es IH]; intros w Hw; [done|].
  pose proof (step_waiting e w Hw) as H1.
  cbn [run]. destruct (step randomUUID e w) as [w1 fx1]. cbn [fst] in H1.
  specialize (IH w1 H1).
  by destruct (run randomUUID es w1) as [w2 fx2].
Qed.

(** With no idle slot, the slot that [enable] marks is the one the next
    [getAvailability] returns. *)
Lemma enabled_slot_claimed i x a :
  AvailabilityQueue.count_ok a →
  (AvailabilityQueue.availabilityCount a ≤ 0)%Z →
  (∀ j, AvailabilityQueue.read j (AvailabilityQueue.availability a) = false)
  ∧ AvailabilityQueue.getAvailability x (AvailabilityQueue.enable i a).1
    = (AvailabilityQueue.freeze i (AvailabilityQueue.enable i a).1, [],
       AvailabilityQueue.Returned (Z.of_nat i)).
Proof.
  intros Hok Hle.
  assert (AvailabilityQueue.count_true (AvailabilityQueue.availability a) = 0%nat)
    as Hzero.
  { unfold AvailabilityQueue.count_ok, AvailabilityQueue.idle_slots in Hok. lia. }
  assert (∀ j, AvailabilityQueue.read j (AvailabilityQueue.availability a) = false)
    as Hall.
  { intros j. destruct (AvailabilityQueue.read j _) eqn:E; [|done].
    apply read_true in E. by destruct (count_true_zero _ _ Hzero E). }
  split; [exact Hall|].
  pose proof (enable_count_ok i a Hok) as Hok2.
  revert Hok2. unfold AvailabilityQueue.enable. rewrite Hall. simpl.
  rewrite release_spec. simpl. intros Hok2.
  match goal with |- AvailabilityQueue.getAvailability x ?a2 = _ =>
    destruct (getAvailability_spec x a2)
      as [[Hc _]|[(_ & i0 & _ & Ht & _ & Hg)|(_ & Hf & _)]]
  end.
  - simpl in Hc. unfold AvailabilityQueue.count_ok, AvailabilityQueue.idle_slots in Hok.
    lia.
  - destruct (decide (i0 = i)) as [->|Hne]; [done|]. exfalso.
    apply read_true in Ht. simpl in Ht.
    rewrite read_write_ne in Ht by done. by rewrite Hall in Ht.
  - specialize (Hf i). simpl in Hf. by rewrite read_write_eq in Hf.
Qed.

(** [push] resumes the dispatcher that waits for a task, and the dispatcher
    then takes the task pushed. *)
Lemma push_wakes (payload : D) w x :
  TaskQueue.repr (taskQueue (pool w)) [] →
  Lock.resolve (TaskQueue.lock (taskQueue (pool w))) = Some x →
  loop w = Popping (TaskQueue.Awaiting x) →
  let w1 := (step (R:=R) randomUUID (AddTask payload) w).1 in
  loop w1 = Popping TaskQueue.Resumable
  ∧ loop (step (R:=R) randomUUID Turn w1).1
    = Claiming {| id := randomUUID (created w); data := payload |} Runnable.
Proof.
  intros Hr Hx El. cbv zeta.
  set (task := {| id := randomUUID (created w); data := payload |}).
  assert ((step (R:=R) randomUUID (AddTask payload) w).1
          = {| pool := {| workers := workers (pool w);
                          availability := availability (pool w);
                          taskQueue :=
                            {| TaskQueue.heap :=
                                 TaskQueue.heap (TaskQueue.link task (taskQueue (pool w)));
                               TaskQueue.head :=
                                 TaskQueue.head (TaskQueue.link task (taskQueue (pool w)));
                               TaskQueue.tail :=
                                 TaskQueue.tail (TaskQueue.link task (taskQueue (pool w)));
                               TaskQueue.lock := {| Lock.resolve := None |} |};
                          notifications :=
                            <[randomUUID (created w) := created w]>
                              (notifications (pool w)) |};
               created := S (created w);
               loop := Popping TaskQueue.Resumable;
               promises := promises w |}) as ->.
  { unfold step. cbn [handle]. rewrite addTask_spec.
    cbn [fst snd pool loop created promises].
    rewrite push_spec. cbn [fst snd]. rewrite El, Hx.
    cbn [resumed]. rewrite queue_calls_queue_lock. simpl Lock.wakes.
    by rewrite decide_True by apply list_elem_of_here. }
  split; [done|].
  unfold step. cbn [handle]. unfold turn. cbn [loop pool taskQueue].
  pose proof (link_repr task _ _ Hr) as Hr'. simpl in Hr'.
  apply (repr_lock _ {| Lock.resolve := None |}) in Hr'.
  destruct (dequeue_repr _ _ _ _ Hr') as (q' & Hdq & _ & _).
  unfold TaskQueue.pop_resume. rewrite Hdq. simpl. done.
Qed.

(** [enable] in the ["message"] and ["online"] handlers resumes the
    dispatcher that waits for a worker, and the dispatcher then posts the
    task it holds to the worker enabled. *)
Lemma handler_wakes (e : event D R) w i task x sub post :
  e = Online i ∨ (∃ k result, e = Message i k result) →
  (i < workers (pool w))%nat →
  Forall (λ payload, cloneable payload = true) sub →
  dispatching w sub post →
  waiting_ok w →
  loop w = Claiming task (Waiting x) →
  (∀ j, slot_flag j w = false)
  ∧ let w1 := (step randomUUID e w).1 in
    loop w1 = Claiming task Runnable
    ∧ (step (R:=R) randomUUID Turn w1).2 = [Post i task].
Proof.
  intros He Hi Hcl (cells & _ & Hs & _ & Hok & Hn) Hw El.
  assert (cloneable (data task) = true) as Hct.
  { rewrite Hs, El in Hcl. apply Forall_app in Hcl as [_ Hcl].
    simpl in Hcl. by apply Forall_cons in Hcl as [? _]. }
  unfold waiting_ok in Hw. rewrite El in Hw. destruct Hw as [Hle Hx].
  destruct (enabled_slot_claimed i (promises w) _ Hok Hle) as [Hall Hg].
  split; [exact Hall|]. cbv zeta.
  destruct (enable_wakes i _ x Hx) as [[_ Ht]|[Hwk _]];
    [by rewrite Hall in Ht|].
  assert (loop (step randomUUID e w).1 = Claiming task Runnable
          ∧ availability (pool (step randomUUID e w).1)
            = (AvailabilityQueue.enable i (availability (pool w))).1
          ∧ promises (step randomUUID e w).1 = promises w
          ∧ workers (pool (step randomUUID e w).1) = workers (pool w))
    as (Hl1 & Ha1 & Hp1 & Hw1).
  { destruct He as [->|(k & result & ->)]; unfold step; cbn [handle].
    - unfold on_online.
      destruct (AvailabilityQueue.enable i _) as [a c]. simpl in *.
      rewrite El. simpl. rewrite availability_calls_lock, Hwk.
      by rewrite decide_True by apply list_elem_of_here.
    - rewrite on_message_spec. cbn [fst snd pool loop availability promises workers].
      rewrite El. cbn [resumed].
      rewrite availability_calls_app, availability_calls_lock.
      assert (availability_calls
                (match notifications (pool w) !! k with
                 | Some promise => [Fulfil (D:=D) promise result]
                 | None => []
                 end) = []) as -> by (by destruct (notifications (pool w) !! k)).
      simpl app. rewrite Hwk.
      by rewrite decide_True by apply list_elem_of_here. }
  split; [exact Hl1|].
  revert Hl1 Ha1 Hp1 Hw1. generalize (step randomUUID e w).1.
  intros w1 Hl1 Ha1 Hp1 Hw1.
  unfold step. cbn [handle]. unfold turn. rewrite Hl1, Ha1, Hp1, Hw1, Hg.
  rewrite decide_True by lia. rewrite Hct. simpl. by rewrite Nat2Z.id.
Qed.


End WakeUps.

Section WakeUpsExamples.
Import WorkerPool.


End WakeUpsExamples.

(** ** Requests and replies *)

Section Replies.
Import WorkerPool.
Context {D R : Type} `{!Cloneable D}.
Variable randomUUID : nat → string.
Implicit Types (w : world D) (es : list (event D R)) (fx : list (effect D R)).

Lemma posted_tasks_app fx1 fx2 :
  posted_tasks (fx1 ++ fx2) = posted_tasks fx1 ++ posted_tasks fx2.
Proof. unfold posted_tasks. apply bind_app. Qed.

Lemma posted_tasks_queue_lock (cs : list Lock.call) :
  posted_tasks (D:=D) (R:=R) (QueueLock <$> cs) = [].
Proof. unfold posted_tasks. induction cs as [|c cs IH]; [done|exact IH]. Qed.

Lemma posted_tasks_availability_lock (cs : list Lock.call) :
  posted_tasks (D:=D) (R:=R) (AvailabilityLock <$> cs) = [].
Proof. unfold posted_tasks. induction cs as [|c cs IH]; [done|exact IH]. Qed.

Lemma posted_tasks_posted fx :
  posted fx = prod_map Datatypes.id data <$> posted_tasks fx.
Proof.
  induction fx as [|e fx IH]; [done|].
  destruct e as [promise r|c|c|workerId task];
    try (change (posted (_ :: fx)) with (posted fx);
         change (posted_tasks (_ :: fx)) with (posted_tasks fx); exact IH).
  change (posted (_ :: fx)) with ((workerId, data task) :: posted fx).
  change (posted_tasks (_ :: fx)) with ((workerId, task) :: posted_tasks fx).
  by rewrite fmap_cons, IH.
Qed.

(** The tasks [addTask] builds from the payload of an event. *)
Lemma tasks_from_cons first (e : event D R) es :
  tasks_from randomUUID first (submitted (e :: es))
  = tasks_from randomUUID first (submitted [e])
    ++ tasks_from randomUUID (first + length (submitted [e])) (submitted es).
Proof.
  rewrite submitted_cons. unfold tasks_from. rewrite imap_app.
  f_equal. apply imap_ext. intros k payload _. simpl. f_equal. f_equal. lia.
Qed.

(** One step keeps the tasks in order: those posted, the one in the hand
    of the dispatcher, those in the queue. *)
Lemma step_tasks (e : event D R) w sub post all sent :
  (∀ i, event_worker e = Some i → (i < workers (pool w))%nat) →
  Forall (λ payload, cloneable payload = true) sub →
  dispatching w sub post →
  all = sent.*2 ++ in_hand (loop w) ++ TaskQueue.items (taskQueue (pool w)) →
  all ++ tasks_from randomUUID (created w) (submitted [e])
  = (sent ++ posted_tasks (step randomUUID e w).2).*2
    ++ in_hand (loop (step randomUUID e w).1)
    ++ TaskQueue.items (taskQueue (pool (step randomUUID e w).1)).
Proof.
  intros He Hcl Hd ->.
  pose proof (step_dispatching randomUUID e w sub post He Hcl Hd)
    as (cells1 & _ & _ & Hlo1 & _).
  assert (loop (step randomUUID e w).1 ≠ Failed) as Hnf.
  { intros Hf. unfold loop_ok in Hlo1. by rewrite Hf in Hlo1. }
  clear Hlo1 cells1.
  destruct Hd as (cells & Hr & Hs & Hlo & Hok & Hn).
  rewrite (items_repr _ _ Hr).
  revert Hnf. unfold step.
  destruct e as [payload|workerId k result|workerId|workerId|workerId| |];
    cbn [handle submitted mbind list_bind tasks_from imap app]; intros Hlo1.
  - rewrite addTask_spec. cbn [fst snd pool loop created promises taskQueue].
    rewrite push_spec. cbn [fst snd]. clear Hlo1.
    rewrite posted_tasks_queue_lock, !(right_id_L [] (++)), resumed_in_hand.
    rewrite Nat.add_0_r.
    set (task := {| id := randomUUID (created w); data := payload |}).
    pose proof (link_repr task _ _ Hr) as Hr'.
    apply (repr_lock _ {| Lock.resolve := None |}) in Hr'.
    rewrite (items_repr _ _ Hr'), fmap_app. simpl.
    by rewrite <- !(assoc_L (++)).
  - rewrite on_message_spec. cbn [fst snd pool loop created promises taskQueue].
    rewrite posted_tasks_app, posted_tasks_availability_lock, resumed_in_hand.
    assert (posted_tasks
              (match notifications (pool w) !! k with
               | Some promise => [Fulfil (D:=D) promise result]
               | None => []
               end) = []) as -> by (by destruct (notifications (pool w) !! k)).
    by rewrite !(right_id_L [] (++)), (items_repr _ _ Hr).
  - cbn [on_exit fst snd pool loop taskQueue]. rewrite resumed_in_hand.
    simpl. by rewrite !(right_id_L [] (++)), (items_repr _ _ Hr).
  - cbn [on_error fst snd pool loop taskQueue]. rewrite resumed_in_hand.
    simpl. by rewrite !(right_id_L [] (++)), (items_repr _ _ Hr).
  - unfold on_online. destruct (AvailabilityQueue.enable _ _) as [a c].
    cbn [fst snd pool loop taskQueue].
    rewrite posted_tasks_availability_lock, resumed_in_hand.
    by rewrite !(right_id_L [] (++)), (items_repr _ _ Hr).
  - destruct (loop w) as [|[|x|]|task [|x]|] eqn:El;
      cbn [fst snd pool loop taskQueue]; rewrite ?El, ?resumed_in_hand;
      simpl; by rewrite !(right_id_L [] (++)), (items_repr _ _ Hr).
  - revert Hlo1. unfold turn. unfold loop_ok in Hlo.
    destruct (loop w) as [|[|x|]|task [|x]|] eqn:El;
      try (intros _; cbn [fst snd pool loop taskQueue];
           rewrite ?El, ?resumed_in_hand; simpl;
           by rewrite !(right_id_L [] (++)), (items_repr _ _ Hr)).
    + unfold TaskQueue.pop_enter. destruct cells as [|[a task] rest].
      * rewrite (proj1 Hr). cbn [fmap option_fmap option_map list.head].
        cbn [Lock.acquire fst snd pool created loop promises taskQueue].
        intros _. rewrite posted_tasks_queue_lock, resumed_in_hand.
        rewrite !(right_id_L [] (++)).
        unfold TaskQueue.items. cbn [TaskQueue.head TaskQueue.heap].
        by destruct (length (TaskQueue.heap (taskQueue (pool w)))).
      * destruct (dequeue_repr _ _ _ _ Hr) as (q' & Hdq & Hr' & Hl).
        rewrite (proj1 Hr). cbn [fmap option_fmap option_map list.head].
        rewrite Hdq. cbn [mbind option_bind fst snd pool created loop promises taskQueue].
        intros _. rewrite posted_tasks_queue_lock, resumed_in_hand.
        rewrite !(right_id_L [] (++)), (items_repr _ _ Hr'). done.
    + unfold TaskQueue.pop_resume. destruct Hlo as [Hlk Hne].
      destruct cells as [|[a task] rest]; [done|].
      destruct (dequeue_repr _ _ _ _ Hr) as (q' & Hdq & Hr' & Hl).
      rewrite Hdq. cbn [mbind option_bind fst snd pool created loop promises taskQueue].
      intros _. rewrite posted_tasks_queue_lock, resumed_in_hand.
      rewrite !(right_id_L [] (++)), (items_repr _ _ Hr'). done.
    + destruct (AvailabilityQueue.getAvailability _ _) as [[a c] [z|]].
      * case_decide; [destruct (cloneable _)|].
        -- intros _. cbn [fst snd pool loop taskQueue].
           rewrite resumed_in_hand. simpl.
           rewrite !(right_id_L [] (++)), (items_repr _ _ Hr), fmap_app. simpl.
           by rewrite <- !(assoc_L (++)).
        -- cbn [fst snd pool loop resumed]. done.
        -- cbn [fst snd pool loop resumed]. done.
      * intros _. cbn [fst snd pool loop taskQueue].
        rewrite posted_tasks_availability_lock, resumed_in_hand. simpl.
        by rewrite !(right_id_L [] (++)), (items_repr _ _ Hr).
Qed.

Lemma step_created (e : event D R) w :
  created (step randomUUID e w).1 = (created w + length (submitted [e]))%nat.
Proof.
  rewrite (proj2 (step_table randomUUID e w (randomUUID 0))).
  destruct e; simpl; lia.
Qed.

Lemma run_created es w :
  created (run randomUUID es w).1 = (created w + length (submitted es))%nat.
Proof.
  revert w. induction es as [|e es IH]; intros w; [simpl; lia|].
  rewrite submitted_cons, length_app. cbn [run].
  pose proof (step_created e w) as H1.
  destruct (step randomUUID e w) as [w1 fx1]. cbn [fst] in H1.
  specialize (IH w1). destruct (run randomUUID es w1) as [w2 fx2].
  cbn [fst] in *. lia.
Qed.

Lemma run_tasks es w sub post all sent :
  Forall (λ e, ∀ i, event_worker e = Some i → (i < workers (pool w))%nat) es →
  Forall (λ payload, cloneable payload = true) (sub ++ submitted es) →
  dispatching w sub post →
  all = sent.*2 ++ in_hand (loop w) ++ TaskQueue.items (taskQueue (pool w)) →
  all ++ tasks_from randomUUID (created w) (submitted es)
  = (sent ++ posted_tasks (run randomUUID es w).2).*2
    ++ in_hand (loop (run randomUUID es w).1)
    ++ TaskQueue.items (taskQueue (pool (run randomUUID es w).1)).
Proof.
  revert w sub post all sent.
  induction es as [|e es IH]; intros w sub post all sent Hes Hcl Hd Hall.
  - cbn [run fst snd]. unfold submitted, tasks_from, posted_tasks.
    cbn [mbind list_bind imap]. by rewrite !(right_id_L [] (++)).
  - apply Forall_cons in Hes as [He Hes].
    rewrite submitted_cons, (assoc_L (++)) in Hcl.
    assert (Forall (λ payload, cloneable payload = true) sub) as Hsub.
    { apply Forall_app in Hcl as [Hcl _]. by apply Forall_app in Hcl as [? _]. }
    pose proof (step_dispatching randomUUID e w sub post He Hsub Hd) as Hd1.
    pose proof (step_tasks e w sub post all sent He Hsub Hd Hall) as Ht1.
    pose proof (step_workers randomUUID e w) as Hw.
    pose proof (step_created e w) as Hc.
    rewrite tasks_from_cons. cbn [run].
    destruct (step randomUUID e w) as [w1 fx1]. cbn [fst snd] in *.
    rewrite <- Hw in Hes. rewrite <- Hc.
    specialize (IH w1 _ _ _ _ Hes Hcl Hd1 Ht1).
    destruct (run randomUUID es w1) as [w2 fx2]. cbn [fst snd] in *.
    by rewrite posted_tasks_app, !(assoc_L (++)) in *.
Qed.

(** The entry that [addTask] call number [k] made stays in the table until
    a message with its id arrives. *)
Lemma run_pending es w k :
  (∀ i j, randomUUID i = randomUUID j → i = j) →
  ((k < created w)%nat → notifications (pool w) !! randomUUID k = Some k) →
  (∀ j result, Message (D:=D) (R:=R) j (randomUUID k) result ∉ es) →
  (k < created (run randomUUID es w).1)%nat →
  notifications (pool (run randomUUID es w).1) !! randomUUID k = Some k.
Proof.
  intros Hinj. revert w. induction es as [|e es IH]; intros w Hw Hes Hk.
  - by apply Hw.
  - revert Hk. cbn [run].
    destruct (step_table randomUUID e w (randomUUID k)) as [Ht Hc].
    destruct (step randomUUID e w) as [w1 fx1] eqn:E1. cbn [fst] in *.
    specialize (IH w1).
    destruct (run randomUUID es w1) as [w2 fx2]. cbn [fst] in *.
    intros Hk. apply IH; [|intros j result H; eapply Hes; by right|done].
    intros Hk1. rewrite Ht.
    destruct e as [payload|workerId k' result|workerId|workerId|workerId| |];
      try (apply Hw; lia).
    + case_decide as Hd.
      * apply Hinj in Hd. by subst.
      * apply Hw. destruct (decide (k = created w)) as [->|]; [done|lia].
    + rewrite decide_False; [apply Hw; lia|].
      intros ->. eapply Hes. by left.
Qed.

End Replies.

(** ** A pool of workers that run worker.ts *)

Section EndToEnd.
Import WorkerPool.
Context {D : Type} `{!Cloneable D}.
Variable randomUUID : nat → string.
Variable toString : D → string.

(** No two calls of [crypto.randomUUID] return the same value. *)
Hypothesis randomUUID_unique : ∀ i j, randomUUID i = randomUUID j → i = j.


End EndToEnd.


Section EndToEndExamples.
Import WorkerPool.


End EndToEndExamples.
